(** * The page cache of the library server (src/server/cache.js)

    A shallow embedding of the module: its four module-level variables
    ([cache], [byId], [noCache], [instances]) and [kubeToken] become the
    fields of a record that every exported function threads through; the
    timers of the event loop and the HTTP requests the module issues are
    recorded next to them, so that "this timer was cancelled" and "no
    request was sent" are statements about the state.

    Modelling conventions.
    - A JavaScript value is a [JsVal]; [truthy] and [strict_eq] are the
      language's ToBoolean and [===] on it.  Numbers are the integers and
      NaN.
    - [cache], [byId] and [noCache] are plain objects used as dictionaries:
      a [gmap] from property name to value, a missing key reading as
      [undefined].  Keys are request paths (they begin with a slash) and
      content ids, never the name of a member of Object.prototype.
    - [noCache] maps a suppressed path to the handle of its timer; a
      handle is an object, so a path is suppressed exactly when it has an
      entry.
    - [data.paths] is a [Set] of strings: a duplicate-free list in
      insertion order, which is the order [forEach] visits.
    - The network is an input: the replies a fan-out receives are given in
      the order in which they arrive, and the answer of the orchestration
      API is given to [updateInstances]. *)

From Stdlib Require Import ZArith Ascii String.
From stdpp Require Import gmap strings list fin_maps.

Local Open Scope string_scope.
Local Open Scope list_scope.

(** ** JavaScript values *)

Inductive JsVal :=
  | JUndefined
  | JNull
  | JBool (b : bool)
  | JNum (n : Z)
  | JNaN
  | JStr (s : string)
  | JObj (ref : nat).

(** ToBoolean: [undefined], [null], [false], [0], [NaN] and the empty
    string are falsy, everything else is truthy. *)
Definition truthy (v : JsVal) : bool :=
  match v with
  | JUndefined | JNull | JNaN => false
  | JBool b => b
  | JNum n => negb (n =? 0)%Z
  | JStr s => negb (String.eqb s "")
  | JObj _ => true
  end.

(** [a === b]: same type and same value; objects by identity; NaN is not
    equal to itself. *)
Definition strict_eq (a b : JsVal) : bool :=
  match a, b with
  | JUndefined, JUndefined => true
  | JNull, JNull => true
  | JBool x, JBool y => Bool.eqb x y
  | JNum x, JNum y => (x =? y)%Z
  | JStr x, JStr y => String.eqb x y
  | JObj x, JObj y => (x =? y)%nat
  | _, _ => false
  end.

(** [obj[key]] on a dictionary object: the own property, or [undefined]. *)
Definition js_get (obj : gmap string JsVal) (key : string) : JsVal :=
  default JUndefined (obj !! key).

(** ** Strings: [split] and [join] on a separator *)

(** [s.split(sep)] for a one-character separator. *)
Fixpoint split (sep : ascii) (s : string) : list string :=
  match s with
  | EmptyString => [EmptyString]
  | String c rest =>
      if Ascii.eqb c sep then EmptyString :: split sep rest
      else match split sep rest with
           | segment :: segments => String c segment :: segments
           | [] => [String c EmptyString]
           end
  end.

(** [l.join(sep)]. *)
Fixpoint join (sep : string) (l : list string) : string :=
  match l with
  | [] => EmptyString
  | [x] => x
  | x :: rest => x +:+ sep +:+ join sep rest
  end.

(** ** The state of the module *)

(** A value of [byId]: [{paths: new Set(), modified}]. *)
Record ContentRecord := {
  paths : list string;
  modified : JsVal;
}.

(** [set.add(x)] on a [Set]: insertion order, no duplicates. *)
Definition set_add (x : string) (set : list string) : list string :=
  if decide (x ∈ set) then set else set ++ [x].

(** [data.paths.add(path)]. *)
Definition paths_add (path : string) (data : ContentRecord) : ContentRecord :=
  {| paths := set_add path (paths data); modified := modified data |}.

(** What a pending timer does when it fires. *)
Inductive TimerAction :=
  | Unsuppress (path : string)   (* () => delete noCache[path] *)
  | Poll.                        (* poll, in startInstancePolling *)

(** The requests the module sends. *)
Inductive Request :=
  | PeerPurge (url : string) (edit : bool)  (* GET url?purge=1[&edit=1] *)
  | KubeList (token : JsVal).               (* GET the pod list *)

(** What [request.get] hands to its callback: [err], or [res] and [body]. *)
Inductive Response :=
  | TransportError (e : string)
  | Http (statusCode : Z) (body : string).

Record Pod := { podIP : string }.

Inductive KubeResponse :=
  | KubeTransportError (e : string)
  | KubeHttp (statusCode : Z) (items : list Pod).

Inductive Error :=
  | NetError (e : string)
  | PurgeStatus (url : string) (statusCode : Z)
      (* Tried to purge url but received statusCode; expected 200. *)
  | InstanceStatus (statusCode : Z).
      (* Got status statusCode; expected 200 while updating instance list. *)

(** How a callback-taking call has completed: the callback not invoked,
    or invoked with [null] or an error as its first argument. *)
Inductive Completion :=
  | Pending
  | Done (err : option Error).

Record State := {
  cache : gmap string JsVal;         (* simple path to html cache *)
  byId : gmap string ContentRecord;  (* id to last modified + paths *)
  noCache : gmap string nat;         (* paths not to cache, mapped to timers *)
  instances : list string;           (* the IPs of all the library instances *)
  kubeToken : JsVal;
  timeouts : gmap nat TimerAction;   (* the event loop's pending timers *)
  nextTimer : nat;                   (* the next timer handle *)
  outbox : list Request;             (* requests sent so far, oldest first *)
}.

Definition set_cache (f : gmap string JsVal → gmap string JsVal) (s : State) : State :=
  {| cache := f (cache s); byId := byId s; noCache := noCache s;
     instances := instances s; kubeToken := kubeToken s;
     timeouts := timeouts s; nextTimer := nextTimer s; outbox := outbox s |}.

Definition set_byId (f : gmap string ContentRecord → gmap string ContentRecord)
    (s : State) : State :=
  {| cache := cache s; byId := f (byId s); noCache := noCache s;
     instances := instances s; kubeToken := kubeToken s;
     timeouts := timeouts s; nextTimer := nextTimer s; outbox := outbox s |}.

Definition set_noCache (f : gmap string nat → gmap string nat) (s : State) : State :=
  {| cache := cache s; byId := byId s; noCache := f (noCache s);
     instances := instances s; kubeToken := kubeToken s;
     timeouts := timeouts s; nextTimer := nextTimer s; outbox := outbox s |}.

Definition set_instances (l : list string) (s : State) : State :=
  {| cache := cache s; byId := byId s; noCache := noCache s;
     instances := l; kubeToken := kubeToken s;
     timeouts := timeouts s; nextTimer := nextTimer s; outbox := outbox s |}.

Definition set_kubeToken (t : JsVal) (s : State) : State :=
  {| cache := cache s; byId := byId s; noCache := noCache s;
     instances := instances s; kubeToken := t;
     timeouts := timeouts s; nextTimer := nextTimer s; outbox := outbox s |}.

Definition send (reqs : list Request) (s : State) : State :=
  {| cache := cache s; byId := byId s; noCache := noCache s;
     instances := instances s; kubeToken := kubeToken s;
     timeouts := timeouts s; nextTimer := nextTimer s;
     outbox := outbox s ++ reqs |}.

(** [clearTimeout(h)]. *)
Definition clearTimeout (h : nat) (s : State) : State :=
  {| cache := cache s; byId := byId s; noCache := noCache s;
     instances := instances s; kubeToken := kubeToken s;
     timeouts := delete h (timeouts s); nextTimer := nextTimer s;
     outbox := outbox s |}.

(** [setTimeout(action, delay)]: a new handle, never handed out before.
    Time itself is not modelled: a timer is pending until it is fired or
    cleared. *)
Definition setTimeout (action : TimerAction) (s : State) : nat * State :=
  (nextTimer s,
   {| cache := cache s; byId := byId s; noCache := noCache s;
      instances := instances s; kubeToken := kubeToken s;
      timeouts := <[nextTimer s := action]> (timeouts s);
      nextTimer := S (nextTimer s); outbox := outbox s |}).

(** The module as it is just after [const cache = {}] ... [let kubeToken = null]. *)
Definition empty_state : State :=
  {| cache := ∅; byId := ∅; noCache := ∅; instances := []; kubeToken := JNull;
     timeouts := ∅; nextTimer := 0; outbox := [] |}.

(** ** The peer directory *)

(** [updateInstances(token, cb)], given the answer [kube] of the
    orchestration API.  The result is the state and what [cb] is called
    with. *)
Definition updateInstances (token : JsVal) (kube : KubeResponse) (s : State)
    : State * Completion :=
  let s := send [KubeList token] s in
  match kube with
  | KubeTransportError e => (s, Done (Some (NetError e)))
  | KubeHttp statusCode items =>
      if negb (statusCode =? 200)%Z
      then (s, Done (Some (InstanceStatus statusCode)))
      else (* pull off all the pod IPs *)
        (set_instances (map podIP items) s, Done None)
  end.

(** [startInstancePolling()]: [tokenFile] is the content of the token
    file, [None] when reading it throws. *)
Definition startInstancePolling (tokenFile : option string) (s : State) : State :=
  match tokenFile with
  | None => s
  | Some token => (setTimeout Poll (set_kubeToken (JStr token) s)).2
  end.

(** One step of the event loop: the pending timer [h] fires.  [kube] is
    the answer the poll gets, when the timer is the poll. *)
Definition fire (h : nat) (kube : KubeResponse) (s : State) : State :=
  match timeouts s !! h with
  | None => s
  | Some action =>
      let s := clearTimeout h s in
      match action with
      | Unsuppress path => set_noCache (delete path) s
      | Poll =>
          (* after some delay, update again *)
          (setTimeout Poll (updateInstances (kubeToken s) kube s).1).2
      end
  end.

(** ** The purge coordinator *)

(** Modelled from the spec: [async.each(coll, iteratee, callback)] of the
    async package, which is not part of src/.  "All peer calls are issued
    concurrently; the operation's overall result is first-failure-wins:
    any peer returning a non-success status or a transport error fails
    the whole operation immediately."  [arrivals] lists what the
    iteratee callbacks are called with, in the order in which they are
    called; [callback] runs once: with the first error, or with [null]
    once [length] calls have completed (at once for an empty
    collection). *)
Fixpoint each_loop (length completed : nat) (arrivals : list (option Error))
    : Completion :=
  match arrivals with
  | [] => Pending
  | Some err :: _ => Done (Some err)
  | None :: rest =>
      if decide (S completed = length) then Done None
      else each_loop length (S completed) rest
  end.

(** [async.each] over a collection of [length] items, see [each_loop]. *)
Definition async_each (length : nat) (arrivals : list (option Error)) : Completion :=
  if decide (length = 0) then Done None else each_loop length 0 arrivals.

(** [`http://${instance}:3000${path}`]. *)
Definition peer_url (instance path : string) : string :=
  "http://" +:+ instance +:+ ":3000" +:+ path.

(** The callback of [request.get] in the fan-out: what it passes on to
    the iteratee's [cb]. *)
Definition peer_reply (url : string) (r : Response) : option Error :=
  match r with
  | TransportError e => Some (NetError e)
  | Http statusCode body =>
      if negb (statusCode =? 200)%Z then Some (PurgeStatus url statusCode)
      else None
  end.

(** The [if (preventCache)] block of [purgeCache]. *)
Definition suppress (path : string) (s : State) : State :=
  let existingTimer := noCache s !! path in
  let s := match existingTimer with
           | Some h => clearTimeout h s
           | None => s
           end in
  let '(h, s) := setTimeout (Unsuppress path) s in
  set_noCache <[path := h]> s.

(** [purgeCache(path, preventCache, recurse, cb)].  [replies] are the
    peers' answers to the fan-out, each with the instance it comes from,
    in order of arrival.  The result is the state and what [cb] is called
    with; a caller that passes no [cb] ignores the latter. *)
Definition purgeCache (path : string) (preventCache recurse : JsVal)
    (replies : list (string * Response)) (s : State) : State * Completion :=
  if truthy recurse then
    (* rather than try to delete our cache directly, purge all instances *)
    (send (map (λ instance, PeerPurge (peer_url instance path) (truthy preventCache))
               (instances s)) s,
     async_each (length (instances s))
       (map (λ reply, peer_reply (peer_url reply.1 path) reply.2) replies))
  else
    let s := if truthy preventCache then suppress path s else s in
    (set_cache (delete path) s, Done None).

(** ** The exported functions *)

Record Req := {
  path : string;         (* req.path *)
  query_purge : JsVal;   (* req.query.purge *)
  query_edit : JsVal;    (* req.query.edit *)
  query_recurse : JsVal; (* req.query.recurse *)
}.

(** What the middleware does with the response. *)
Inductive Res :=
  | Send500 (err : Error)       (* res.status(500).send(err) *)
  | EndOK                       (* res.end('OK') *)
  | EndCached (cachedHTML : JsVal) (* res.end(cachedHTML) *)
  | Next                        (* next() *)
  | NoAnswer.                   (* the purge callback has not run *)

(** [exports.middleware(req, res, next)].  [replies] as in [purgeCache];
    [kube] answers the refresh of the instance list that a failed purge
    starts. *)
Definition middleware (req : Req) (replies : list (string * Response))
    (kube : KubeResponse) (s : State) : State * Res :=
  let cachedHTML := js_get (cache s) (path req) in
  if truthy (query_purge req) || truthy (query_edit req) then
    let '(s, completion) :=
      purgeCache (path req) (query_edit req) (query_recurse req) replies s in
    match completion with
    | Pending => (s, NoAnswer)
    | Done (Some err) =>
        (* if we failed, we should probably update the instance list *)
        let s := if truthy (kubeToken s)
                 then (updateInstances (kubeToken s) kube s).1 else s in
        (s, Send500 err)
    | Done None => (s, EndOK)
    end
  else if truthy cachedHTML then (s, EndCached cachedHTML)
  else (s, Next).

(** [exports.add(id, modified, path, html)]. *)
Definition add (id : string) (modified : JsVal) (path : string) (html : JsVal)
    (s : State) : State :=
  if negb (truthy modified) then s
  else if bool_decide (is_Some (noCache s !! path)) then s
  else
    let s := set_cache <[path := html]> s in
    let data := default {| paths := []; modified := modified |} (byId s !! id) in
    let data := paths_add path data in
    set_byId <[id := data]> s.

(** The cumulative prefixes of [path]:
    [path.split('/').map((segment, i, segments) =>
       segments.slice(0, i).concat([segment]).join('/'))]. *)
Definition ancestors (path : string) : list string :=
  let segments := split "/" path in
  imap (λ i segment, join "/" (take i segments ++ [segment])) segments.

(** The body of [segments.forEach((url) => ...)]. *)
Definition purge_url (url : string) (s : State) : State :=
  if negb (truthy (js_get (cache s) url)) then s
  else (purgeCache url JUndefined JUndefined [] s).1.

(** The body of [data.paths.forEach((path) => ...)]. *)
Definition purge_path (path : string) (s : State) : State :=
  foldl (λ s url, purge_url url s) s (ancestors path).

(** [exports.purge(id, newModified)]: purge assets by id and their
    modified times. *)
Definition purge (id : string) (newModified : JsVal) (s : State) : State :=
  match byId s !! id with
  | None => s
  | Some data =>
      (* skip purging items which have not changed *)
      if strict_eq (modified data) newModified then s
      else foldl (λ s path, purge_path path s) s (paths data)
  end.

(** ** Vocabulary of the statements *)

(** [s'] differs from [s] in the cache store at most. *)
Definition only_cache (s s' : State) : Prop :=
  byId s' = byId s ∧ noCache s' = noCache s ∧ instances s' = instances s ∧
  kubeToken s' = kubeToken s ∧ timeouts s' = timeouts s ∧
  nextTimer s' = nextTimer s ∧ outbox s' = outbox s.

(** [segments.forEach] over a list of urls. *)
Definition purge_urls (urls : list string) (s : State) : State :=
  foldl (λ s url, purge_url url s) s urls.

(** The two nested loops of [purge] visit the urls of [all_urls]. *)
Definition all_urls (data : ContentRecord) : list string :=
  concat (map ancestors (paths data)).

(** The first error among the arrivals, if there is one. *)
Fixpoint first_error (arrivals : list (option Error)) : option Error :=
  match arrivals with
  | [] => None
  | Some err :: _ => Some err
  | None :: rest => first_error rest
  end.

(** A peer's answer counts as a failure when the transport failed or the
    status is not 200. *)
Definition peer_failed (r : Response) : Prop :=
  match r with
  | TransportError _ => True
  | Http statusCode _ => statusCode ≠ 200%Z
  end.

#[global] Instance peer_failed_dec r : Decision (peer_failed r).
Proof. destruct r; simpl; apply _. Defined.

(** A node that has rendered three pages: [/a/b] and [/a/b/c] from the
    documents [doc3] and [doc], and [/a] from [doc2]. *)
Definition three_pages : State :=
  add "doc" (JStr "v1") "/a/b/c" (JStr "<c>")
    (add "doc2" (JStr "v1") "/a" (JStr "<a>")
       (add "doc3" (JStr "v1") "/a/b" (JStr "<b>") empty_state)).

(** The same, but [/a] rendered to the empty string. *)
Definition three_pages_one_empty : State :=
  add "doc" (JStr "v1") "/a/b/c" (JStr "<c>")
    (add "doc2" (JStr "v1") "/a" (JStr "")
       (add "doc3" (JStr "v1") "/a/b" (JStr "<b>") empty_state)).

(** ** The life of the module *)

(** What can happen to a loaded module: a request reaches the middleware,
    the render pipeline calls [add] or [purge], a pending timer fires.
    The completion of a request's network calls is taken together with
    the request. *)
Inductive Event :=
  | OnRequest (req : Req) (replies : list (string * Response)) (kube : KubeResponse)
  | OnAdd (id : string) (modified : JsVal) (path : string) (html : JsVal)
  | OnPurge (id : string) (newModified : JsVal)
  | OnTimer (h : nat) (kube : KubeResponse).

Definition step (e : Event) (s : State) : State :=
  match e with
  | OnRequest req replies kube => (middleware req replies kube s).1
  | OnAdd id modified path html => add id modified path html s
  | OnPurge id newModified => purge id newModified s
  | OnTimer h kube => fire h kube s
  end.

(** The module is loaded, [startInstancePolling()] runs with the token
    file as it is, and the events happen in order. *)
Definition run (tokenFile : option string) (events : list Event) : State :=
  foldl (λ s e, step e s) (startInstancePolling tokenFile empty_state) events.

(** The request a peer receives from the fan-out:
    [GET http://peer:3000/path?purge=1[&edit=1]], its query parsed to
    strings. *)
Definition peer_request (path : string) (edit : bool) : Req :=
  {| path := path; query_purge := JStr "1";
     query_edit := if edit then JStr "1" else JUndefined;
     query_recurse := JUndefined |}.

(** A request that only looks a path up. *)
Definition lookup_request (path : string) : Req :=
  {| path := path; query_purge := JUndefined; query_edit := JUndefined;
     query_recurse := JUndefined |}.

(** The suppression map and the timers fit together: a path is mapped to
    a handle exactly when that handle is the pending timer that lifts the
    path's suppression; handles not yet handed out are not pending; at
    most one poll is pending, and none without a token. *)
Definition timers_ok (s : State) : Prop :=
  (∀ p h, noCache s !! p = Some h ↔ timeouts s !! h = Some (Unsuppress p)) ∧
  (∀ h, is_Some (timeouts s !! h) → h < nextTimer s) ∧
  (∀ h1 h2, timeouts s !! h1 = Some Poll → timeouts s !! h2 = Some Poll → h1 = h2) ∧
  (kubeToken s = JNull → ∀ h, timeouts s !! h ≠ Some Poll).

(** The content index and the cache store fit together: a record has a
    truthy modification time and a non-empty, duplicate-free set of
    paths, and every path with a cache entry is a path of some record. *)
Definition index_ok (s : State) : Prop :=
  (∀ id data, byId s !! id = Some data →
     truthy (modified data) = true ∧ paths data ≠ [] ∧ NoDup (paths data)) ∧
  (∀ p, is_Some (cache s !! p) →
     ∃ id data, byId s !! id = Some data ∧ p ∈ paths data).

(** [s'] differs from [s] in the instance list and the requests sent at
    most. *)
Definition only_network (s s' : State) : Prop :=
  cache s' = cache s ∧ byId s' = byId s ∧ noCache s' = noCache s ∧
  kubeToken s' = kubeToken s ∧ timeouts s' = timeouts s ∧
  nextTimer s' = nextTimer s.

(** * Properties *)

(** ** Reading the state *)

Lemma state_eq (s s' : State) :
  cache s = cache s' → byId s = byId s' → noCache s = noCache s' →
  instances s = instances s' → kubeToken s = kubeToken s' →
  timeouts s = timeouts s' → nextTimer s = nextTimer s' →
  outbox s = outbox s' → s = s'.
Proof. destruct s, s'; simpl; intros; by subst. Qed.

Lemma only_cache_refl s : only_cache s s.
Proof. by repeat split. Qed.

Lemma only_cache_trans s1 s2 s3 :
  only_cache s1 s2 → only_cache s2 s3 → only_cache s1 s3.
Proof. unfold only_cache. intuition congruence. Qed.

Lemma only_cache_eq s s' : only_cache s s' → cache s' = cache s → s' = s.
Proof. intros (? & ? & ? & ? & ? & ? & ?) ?. by apply state_eq. Qed.

Lemma noCache_set_cache f s : noCache (set_cache f s) = noCache s.
Proof. reflexivity. Qed.

Lemma timeouts_set_cache f s : timeouts (set_cache f s) = timeouts s.
Proof. reflexivity. Qed.

Lemma send_nil s : send [] s = s.
Proof. destruct s. unfold send. simpl. by rewrite app_nil_r. Qed.

Lemma js_get_None (obj : gmap string JsVal) key :
  obj !! key = None → truthy (js_get obj key) = false.
Proof. unfold js_get. by intros ->. Qed.

(** ** The local purge of one url, and of a list of urls *)

Lemma purgeCache_local path preventCache recurse replies s :
  truthy recurse = false →
  purgeCache path preventCache recurse replies s =
    (set_cache (delete path) (if truthy preventCache then suppress path s else s),
     Done None).
Proof. unfold purgeCache. by intros ->. Qed.

Lemma purge_url_unfold url s :
  purge_url url s =
    if truthy (js_get (cache s) url) then set_cache (delete url) s else s.
Proof. unfold purge_url. by destruct (truthy (js_get (cache s) url)). Qed.

Lemma purge_url_only_cache url s : only_cache s (purge_url url s).
Proof.
  rewrite purge_url_unfold.
  destruct (truthy (js_get (cache s) url)); by repeat split.
Qed.

Lemma purge_url_lookup url s k :
  cache (purge_url url s) !! k =
    if decide (k = url ∧ truthy (js_get (cache s) k) = true) then None
    else cache s !! k.
Proof.
  rewrite purge_url_unfold.
  destruct (truthy (js_get (cache s) url)) eqn:Hurl; simpl.
  - destruct (decide (k = url)) as [->|Hne].
    + rewrite lookup_delete_eq. by rewrite decide_True.
    + rewrite lookup_delete_ne by done. rewrite decide_False; [done|tauto].
  - rewrite decide_False; [done|]. intros [-> ?]. congruence.
Qed.

Lemma purge_urls_nil s : purge_urls [] s = s.
Proof. reflexivity. Qed.

Lemma purge_urls_cons url urls s :
  purge_urls (url :: urls) s = purge_urls urls (purge_url url s).
Proof. reflexivity. Qed.

Lemma purge_urls_only_cache urls s : only_cache s (purge_urls urls s).
Proof.
  revert s. induction urls as [|url urls IH]; intros s; simpl.
  - apply only_cache_refl.
  - eapply only_cache_trans; [apply purge_url_only_cache | apply IH].
Qed.

(** After the loop, a url of the list whose entry was truthy has no entry;
    every other key has the entry it had. *)
Lemma purge_urls_lookup urls s k :
  cache (purge_urls urls s) !! k =
    if decide (k ∈ urls ∧ truthy (js_get (cache s) k) = true) then None
    else cache s !! k.
Proof.
  revert s. induction urls as [|url urls IH]; intros s.
  - rewrite purge_urls_nil, decide_False; [done|].
    intros [H%elem_of_nil _]. done.
  - rewrite purge_urls_cons, IH.
    assert (Hget : js_get (cache (purge_url url s)) k =
      if decide (k = url ∧ truthy (js_get (cache s) k) = true)
      then JUndefined else js_get (cache s) k).
    { unfold js_get at 1. rewrite purge_url_lookup.
      by destruct (decide (k = url ∧ truthy (js_get (cache s) k) = true)). }
    rewrite Hget, purge_url_lookup.
    destruct (decide (k = url ∧ truthy (js_get (cache s) k) = true)) as [[-> Ht]|Hn].
    + rewrite (decide_True (P := url ∈ url :: urls ∧ _))
        by (split; [apply elem_of_cons; by left | done]).
      by destruct (decide _).
    + destruct (decide (k ∈ urls ∧ truthy (js_get (cache s) k) = true)) as [[Hin Ht]|Hn'].
      * rewrite decide_True; [done|]. split; [apply elem_of_cons; by right | done].
      * rewrite decide_False; [done|].
        intros [[->|Hin]%elem_of_cons Ht]; tauto.
Qed.

Lemma purge_paths_flat ps s :
  foldl (λ s path, purge_path path s) s ps =
    purge_urls (concat (map ancestors ps)) s.
Proof.
  revert s. induction ps as [|p ps IH]; intros s; simpl; [done|].
  rewrite IH. unfold purge_urls, purge_path. by rewrite foldl_app.
Qed.

Lemma purge_changed id newModified data s :
  byId s !! id = Some data → strict_eq (modified data) newModified = false →
  purge id newModified s = purge_urls (all_urls data) s.
Proof.
  intros Hid Hne. unfold purge. rewrite Hid, Hne. apply purge_paths_flat.
Qed.

Lemma purge_only_cache id newModified s : only_cache s (purge id newModified s).
Proof.
  unfold purge. destruct (byId s !! id) as [data|]; [|apply only_cache_refl].
  destruct (strict_eq (modified data) newModified); [apply only_cache_refl|].
  rewrite purge_paths_flat. apply purge_urls_only_cache.
Qed.

Lemma elem_of_all_urls data p url :
  p ∈ paths data → url ∈ ancestors p → url ∈ all_urls data.
Proof.
  intros Hp%list_elem_of_In Hurl%list_elem_of_In. unfold all_urls.
  apply list_elem_of_In, in_concat. exists (ancestors p).
  split; [by apply in_map | done].
Qed.

(** Running the loop a second time changes nothing. *)
Lemma purge_urls_twice urls s :
  purge_urls urls (purge_urls urls s) = purge_urls urls s.
Proof.
  apply only_cache_eq; [apply purge_urls_only_cache|].
  apply map_eq. intros k. rewrite purge_urls_lookup.
  case_decide as H; [|done]. destruct H as [Hin Ht].
  unfold js_get in Ht. rewrite purge_urls_lookup in Ht.
  case_decide as H'; [done|]. exfalso. apply H'. by split.
Qed.

Example ancestors_abc : ancestors "/a/b/c" = [""; "/a"; "/a/b"; "/a/b/c"].
Proof. reflexivity. Qed.

(** ** Purge by content id *)

(** C2, as stated, fails: [doc] is recorded with version [v1] and the path
    [/a/b/c]; after [purge] with the different version [v2] the record
    still has version [v1] and still lists [/a/b/c]. *)
Lemma purge_replaces_record_counterexample :
  let s' := purge "doc" (JStr "v2") three_pages in
  strict_eq (JStr "v1") (JStr "v2") = false ∧
  byId three_pages !! "doc" = Some {| paths := ["/a/b/c"]; modified := JStr "v1" |} ∧
  modified <$> byId s' !! "doc" ≠ Some (JStr "v2") ∧
  paths <$> byId s' !! "doc" = Some ["/a/b/c"].
Proof. vm_compute. repeat split; congruence. Qed.

(** C2, amended: [purge] never writes the content index.  Whatever the
    new modification time, every record keeps its [modified] and its
    [paths]; the call changes nothing but the cache store. *)
Theorem purge_keeps_index id newModified s :
  byId (purge id newModified s) = byId s ∧ only_cache s (purge id newModified s).
Proof. split; [apply purge_only_cache | apply purge_only_cache]. Qed.

(** C3: [purge(id, m)] twice in a row: the second call leaves the whole
    state as the first one left it; and [purge] does nothing at all when
    [id] has no record or when [m] is the recorded modification time. *)
Theorem purge_idempotent id m s :
  purge id m (purge id m s) = purge id m s ∧
  (byId s !! id = None → purge id m s = s) ∧
  (∀ data, byId s !! id = Some data → strict_eq (modified data) m = true →
     purge id m s = s).
Proof.
  split; [|split].
  - destruct (byId s !! id) as [data|] eqn:Hid.
    + destruct (strict_eq (modified data) m) eqn:Hm.
      * assert (purge id m s = s) as ->; unfold purge; by rewrite Hid, Hm.
      * rewrite (purge_changed id m data s) by done.
        rewrite (purge_changed id m data).
        -- apply purge_urls_twice.
        -- destruct (purge_urls_only_cache (all_urls data) s) as [-> _]. done.
        -- done.
    + assert (purge id m s = s) as ->; unfold purge; by rewrite Hid.
  - intros Hid. unfold purge. by rewrite Hid.
  - intros data Hid Hm. unfold purge. by rewrite Hid, Hm.
Qed.

Lemma purge_idempotent_witness :
  purge "doc" (JStr "v2") (purge "doc" (JStr "v2") three_pages) =
    purge "doc" (JStr "v2") three_pages ∧
  purge "nodoc" (JStr "v2") three_pages = three_pages ∧
  purge "doc" (JStr "v1") three_pages = three_pages.
Proof.
  destruct (purge_idempotent "doc" (JStr "v2") three_pages) as [H2 _].
  destruct (purge_idempotent "nodoc" (JStr "v2") three_pages) as (_ & Hnone & _).
  destruct (purge_idempotent "doc" (JStr "v1") three_pages) as (_ & _ & Hsame).
  split; [exact H2|]. split.
  - apply Hnone. vm_compute. reflexivity.
  - apply (Hsame {| paths := ["/a/b/c"]; modified := JStr "v1" |});
      vm_compute; reflexivity.
Defined.

(** C4, as stated, fails: there are cache entries at [/a], [/a/b] and
    [/a/b/c], and [doc] is recorded with the path [/a/b/c]; after [purge]
    of [doc] with a new modification time the entry at [/a], whose
    payload is the empty string, is still there. *)
Lemma purge_ancestors_counterexample :
  let s := three_pages_one_empty in
  let s' := purge "doc" (JStr "v2") s in
  byId s !! "doc" = Some {| paths := ["/a/b/c"]; modified := JStr "v1" |} ∧
  is_Some (cache s !! "/a") ∧ is_Some (cache s !! "/a/b") ∧
  is_Some (cache s !! "/a/b/c") ∧
  cache s' !! "/a" = Some (JStr "") ∧ cache s' !! "/a" ≠ None.
Proof. vm_compute. repeat split; eauto; congruence. Qed.

(** C4, amended: when the record of [id] lists [/a/b/c] and [purge] is
    called with a modification time that differs from the recorded one,
    each of [/a], [/a/b] and [/a/b/c] whose cache entry is truthy has no
    entry afterwards, one without entry or with a falsy payload is left
    as it is, and no request is sent, whatever the instance list is. *)
Theorem purge_ancestors id m data s :
  byId s !! id = Some data →
  strict_eq (modified data) m = false →
  "/a/b/c" ∈ paths data →
  let s' := purge id m s in
  (∀ url, url ∈ ["/a"; "/a/b"; "/a/b/c"] →
     cache s' !! url =
       if truthy (js_get (cache s) url) then None else cache s !! url) ∧
  outbox s' = outbox s ∧ instances s' = instances s.
Proof.
  intros Hid Hm Hp s'. subst s'. split.
  - intros url Hurl. rewrite (purge_changed id m data s) by done.
    rewrite purge_urls_lookup.
    assert (url ∈ all_urls data) as Hall.
    { apply (elem_of_all_urls data "/a/b/c"); [done|].
      rewrite ancestors_abc. apply elem_of_cons. by right. }
    destruct (truthy (js_get (cache s) url)) eqn:Ht.
    + by rewrite decide_True.
    + rewrite decide_False; [done|]. intros [_ ?]. congruence.
  - destruct (purge_only_cache id m s) as (_ & _ & Hi & _ & _ & _ & Ho). done.
Qed.

Lemma purge_ancestors_witness :
  let s := set_instances ["10.0.0.1"; "10.0.0.2"] three_pages in
  let s' := purge "doc" (JStr "v2") s in
  cache s' !! "/a" = None ∧ cache s' !! "/a/b" = None ∧
  cache s' !! "/a/b/c" = None ∧ outbox s' = [].
Proof.
  intros s s'.
  destruct (purge_ancestors "doc" (JStr "v2")
              {| paths := ["/a/b/c"]; modified := JStr "v1" |} s)
    as (Hurls & Hout & _).
  - vm_compute. reflexivity.
  - vm_compute. reflexivity.
  - apply list_elem_of_here.
  - split; [|split; [|split]].
    + apply (Hurls "/a"). apply list_elem_of_here.
    + apply (Hurls "/a/b"). apply list_elem_of_further, list_elem_of_here.
    + apply (Hurls "/a/b/c").
      apply list_elem_of_further, list_elem_of_further, list_elem_of_here.
    + exact Hout.
Defined.

(** ** Adding a rendered page *)

Lemma add_refused id m p html s :
  truthy m = false ∨ is_Some (noCache s !! p) → add id m p html s = s.
Proof.
  intros [Hm|Hsup]; unfold add.
  - by rewrite Hm.
  - destruct (truthy m); [|done]. simpl. by rewrite bool_decide_eq_true_2.
Qed.

Lemma add_accepted id m p html s :
  truthy m = true → noCache s !! p = None →
  add id m p html s =
    set_byId <[id := paths_add p
                        (default {| paths := []; modified := m |} (byId s !! id))]>
      (set_cache <[p := html]> s).
Proof.
  intros Hm Hsup. unfold add. rewrite Hm. simpl.
  rewrite bool_decide_eq_false_2; [done|]. rewrite Hsup. by intros [? ?].
Qed.

Lemma elem_of_set_add q x set : q ∈ set_add x set ↔ q = x ∨ q ∈ set.
Proof.
  unfold set_add. destruct (decide (x ∈ set)) as [Hin|Hnotin].
  - split; [by right|]. intros [->|?]; done.
  - rewrite elem_of_app, list_elem_of_singleton. tauto.
Qed.

(** C5: [add] does nothing when [modified] is falsy or the path is
    suppressed.  Otherwise a lookup of the path in the cache store gives
    the payload, the other entries are as before, and the record of [id]
    lists the path next to the paths it listed before, with the
    modification time it had, or the given one when the record is new. *)
Theorem add_spec id m p html s :
  (truthy m = false ∨ is_Some (noCache s !! p) → add id m p html s = s) ∧
  (truthy m = true → noCache s !! p = None →
     let s' := add id m p html s in
     js_get (cache s') p = html ∧
     (∀ q, q ≠ p → cache s' !! q = cache s !! q) ∧
     (∃ data', byId s' !! id = Some data' ∧
        (∀ q, q ∈ paths data' ↔
              q = p ∨ ∃ data, byId s !! id = Some data ∧ q ∈ paths data) ∧
        modified data' = from_option modified m (byId s !! id)) ∧
     (∀ id', id' ≠ id → byId s' !! id' = byId s !! id')).
Proof.
  split; [apply add_refused|].
  intros Hm Hsup s'. subst s'. rewrite add_accepted by done. simpl.
  split; [|split; [|split]].
  - unfold js_get. by rewrite lookup_insert_eq.
  - intros q Hq. by rewrite lookup_insert_ne.
  - eexists. split; [apply lookup_insert_eq|]. split.
    + intros q. simpl. rewrite elem_of_set_add.
      destruct (byId s !! id) as [data|]; simpl.
      * split; [intros [->|?]; eauto|].
        intros [->|(data' & [= <-] & ?)]; eauto.
      * split; [intros [->|?%elem_of_nil]; eauto; done|].
        intros [->|(data' & ? & ?)]; eauto; done.
    + simpl. by destruct (byId s !! id).
  - intros id' Hid'. by rewrite lookup_insert_ne.
Qed.

Lemma add_spec_witness :
  add "doc" JUndefined "/a" (JStr "<a>") empty_state = empty_state ∧
  js_get (cache (add "doc" (JStr "v1") "/a" (JStr "<a>") empty_state)) "/a" =
    JStr "<a>".
Proof.
  destruct (add_spec "doc" JUndefined "/a" (JStr "<a>") empty_state) as [Hno _].
  destruct (add_spec "doc" (JStr "v1") "/a" (JStr "<a>") empty_state) as [_ Hyes].
  split.
  - apply Hno. left. reflexivity.
  - apply Hyes; reflexivity.
Defined.

(** ** The request front *)

Lemma middleware_lookup req replies kube s :
  truthy (query_purge req) = false → truthy (query_edit req) = false →
  middleware req replies kube s =
    if truthy (js_get (cache s) (path req))
    then (s, EndCached (js_get (cache s) (path req)))
    else (s, Next).
Proof. intros Hp He. unfold middleware. by rewrite Hp, He. Qed.

(** C10: [add] with a truthy modification time, a path that is not
    suppressed and a falsy payload stores the payload; a later lookup of
    that path through the middleware is no cache hit: it calls [next()]
    and leaves the state alone, exactly as it does once the entry is
    deleted. *)
Theorem add_falsy_not_served id m html req replies kube s :
  truthy m = true → noCache s !! path req = None → truthy html = false →
  truthy (query_purge req) = false → truthy (query_edit req) = false →
  let s' := add id m (path req) html s in
  cache s' !! path req = Some html ∧
  middleware req replies kube s' = (s', Next) ∧
  (middleware req replies kube (set_cache (delete (path req)) s')).2 = Next.
Proof.
  intros Hm Hsup Hhtml Hp He s'.
  assert (cache s' !! path req = Some html) as Hstored.
  { subst s'. rewrite add_accepted by done. simpl. apply lookup_insert_eq. }
  split; [done|]. split.
  - rewrite middleware_lookup by done. unfold js_get. rewrite Hstored. simpl.
    by rewrite Hhtml.
  - rewrite middleware_lookup by done. simpl. unfold js_get.
    by rewrite lookup_delete_eq.
Qed.

Lemma add_falsy_not_served_witness :
  let req := {| path := "/a"; query_purge := JUndefined;
                query_edit := JUndefined; query_recurse := JUndefined |} in
  let s' := add "doc" (JStr "v1") "/a" (JStr "") empty_state in
  cache s' !! "/a" = Some (JStr "") ∧
  middleware req [] (KubeTransportError "down") s' = (s', Next).
Proof.
  intros req s'.
  destruct (add_falsy_not_served "doc" (JStr "v1") (JStr "") req []
              (KubeTransportError "down") empty_state)
    as (Hstored & Hnext & _); try reflexivity.
  split; [exact Hstored | exact Hnext].
Defined.

(** ** The purge coordinator: the local purge and the suppression *)

Lemma suppress_noCache p s : noCache (suppress p s) = <[p := nextTimer s]> (noCache s).
Proof. unfold suppress. by destruct (noCache s !! p). Qed.

Lemma suppress_timeouts p s :
  timeouts (suppress p s) =
    <[nextTimer s := Unsuppress p]>
      (match noCache s !! p with
       | Some h => delete h (timeouts s)
       | None => timeouts s
       end).
Proof. unfold suppress. by destruct (noCache s !! p). Qed.

Lemma purgeCache_recurse p preventCache recurse replies s :
  truthy recurse = true →
  (purgeCache p preventCache recurse replies s).1 =
    send (map (λ instance, PeerPurge (peer_url instance p) (truthy preventCache))
              (instances s)) s.
Proof. unfold purgeCache. by intros ->. Qed.

(** C1, as stated, fails: a recursive purge of [/a] on a node with an
    empty instance list calls back with success, and the entry of [/a]
    is still in the cache store. *)
Lemma purgeCache_always_local_counterexample :
  let r := purgeCache "/a" JUndefined (JStr "1") [] three_pages in
  instances three_pages = [] ∧ r.2 = Done None ∧
  cache r.1 !! "/a" = Some (JStr "<a>") ∧ cache r.1 !! "/a" ≠ None.
Proof. vm_compute. repeat split; congruence. Qed.

(** C1, amended: [purgeCache] without [recurse] deletes the entry of
    [path] from the cache store and calls back with success, whatever
    [preventCache] is.  With [recurse] it does not touch the cache store:
    it sends one purge request to each address of the instance list, and
    with an empty list it changes nothing at all and calls back with
    success. *)
Theorem purgeCache_local_entry p preventCache recurse replies s :
  (truthy recurse = false →
     cache (purgeCache p preventCache recurse replies s).1 !! p = None ∧
     (purgeCache p preventCache recurse replies s).2 = Done None) ∧
  (truthy recurse = true →
     cache (purgeCache p preventCache recurse replies s).1 = cache s ∧
     outbox (purgeCache p preventCache recurse replies s).1 =
       outbox s ++ map (λ instance, PeerPurge (peer_url instance p) (truthy preventCache))
                       (instances s) ∧
     (instances s = [] →
        purgeCache p preventCache recurse replies s = (s, Done None))).
Proof.
  split; intros Hr.
  - rewrite purgeCache_local by done. simpl. split; [|done].
    apply lookup_delete_eq.
  - rewrite purgeCache_recurse by done. simpl. split; [done|]. split; [done|].
    intros Hnil. unfold purgeCache. rewrite Hr, Hnil. simpl.
    by rewrite send_nil.
Qed.

Lemma purgeCache_local_entry_witness :
  cache (purgeCache "/a" (JStr "1") JUndefined [] three_pages).1 !! "/a" = None ∧
  purgeCache "/a" JUndefined (JStr "1") [] three_pages = (three_pages, Done None).
Proof.
  destruct (purgeCache_local_entry "/a" (JStr "1") JUndefined [] three_pages)
    as [Hlocal _].
  destruct (purgeCache_local_entry "/a" JUndefined (JStr "1") [] three_pages)
    as [_ Hrec].
  split.
  - apply Hlocal. reflexivity.
  - apply Hrec; reflexivity.
Defined.

(** C7, as stated, fails: with [preventCache] and [recurse] both set, on
    a node whose one peer answers 200, the call succeeds and [/a] is not
    suppressed on the node: a following [add] caches the page. *)
Lemma purgeCache_always_suppress_counterexample :
  let s := set_instances ["10.0.0.1"] empty_state in
  let r := purgeCache "/a" (JStr "1") (JStr "1") [("10.0.0.1", Http 200 "OK")] s in
  r.2 = Done None ∧ noCache r.1 !! "/a" = None ∧
  cache (add "doc" (JStr "v1") "/a" (JStr "<a>") r.1) !! "/a" = Some (JStr "<a>").
Proof. vm_compute. repeat split. Qed.

(** C7, amended: [purgeCache] with [preventCache] and without [recurse]
    arms the suppression of [path]: [noCache] maps [path] to a new timer,
    which is pending and will lift the suppression; the timer [path] was
    mapped to before is no longer pending; [add] for [path] is refused.
    With [recurse] the node's own suppression map and timers are left as
    they are, and every request of the fan-out carries [edit=1]. *)
Theorem purgeCache_suppress p preventCache recurse replies s :
  truthy preventCache = true →
  let s' := (purgeCache p preventCache recurse replies s).1 in
  (truthy recurse = false →
     noCache s' !! p = Some (nextTimer s) ∧
     timeouts s' !! nextTimer s = Some (Unsuppress p) ∧
     (∀ h, noCache s !! p = Some h → h ≠ nextTimer s → timeouts s' !! h = None) ∧
     (∀ id m html, add id m p html s' = s')) ∧
  (truthy recurse = true →
     noCache s' = noCache s ∧ timeouts s' = timeouts s ∧
     outbox s' =
       outbox s ++ map (λ instance, PeerPurge (peer_url instance p) true)
                       (instances s)).
Proof.
  intros Hp s'. subst s'. split; intros Hr.
  - rewrite purgeCache_local by done. rewrite Hp. cbn [fst].
    rewrite noCache_set_cache, timeouts_set_cache.
    assert (noCache (suppress p s) !! p = Some (nextTimer s)) as Hno.
    { rewrite suppress_noCache. apply lookup_insert_eq. }
    split; [done|]. split; [|split].
    + rewrite suppress_timeouts. apply lookup_insert_eq.
    + intros h Hh Hne. rewrite suppress_timeouts, Hh.
      rewrite lookup_insert_ne by done. apply lookup_delete_eq.
    + intros id m html. apply add_refused. right.
      rewrite noCache_set_cache, Hno. by eexists.
  - rewrite purgeCache_recurse by done. rewrite Hp. done.
Qed.

Lemma purgeCache_suppress_witness :
  let s := (purgeCache "/a" (JStr "1") JUndefined [] three_pages).1 in
  let s' := (purgeCache "/a" (JStr "1") JUndefined [] s).1 in
  noCache s !! "/a" = Some 0 ∧ noCache s' !! "/a" = Some 1 ∧
  timeouts s' !! 0 = None ∧ timeouts s' !! 1 = Some (Unsuppress "/a") ∧
  add "doc2" (JStr "v2") "/a" (JStr "<a2>") s' = s'.
Proof.
  intros s s'.
  destruct (purgeCache_suppress "/a" (JStr "1") JUndefined [] three_pages)
    as [[H0 _] _]; [reflexivity | reflexivity |].
  destruct (purgeCache_suppress "/a" (JStr "1") JUndefined [] s)
    as [(H1 & Hpending & Hcleared & Hadd) _]; [reflexivity | reflexivity |].
  split; [exact H0|]. split; [exact H1|]. split; [|split].
  - apply (Hcleared 0); [exact H0 | vm_compute; lia].
  - exact Hpending.
  - apply Hadd.
Defined.

(** ** The fan-out *)

Lemma each_loop_complete n arrivals completed :
  completed + length arrivals = n → arrivals ≠ [] →
  each_loop n completed arrivals = Done (first_error arrivals).
Proof.
  revert completed.
  induction arrivals as [|[err|] rest IH]; intros completed Hlen Hne;
    [done | done |].
  simpl in *. destruct (decide (S completed = n)) as [Heq|Hneq].
  - destruct rest; [done | simpl in Hlen; lia].
  - apply IH; [lia|]. intros ->. simpl in Hlen. lia.
Qed.

(** Once every call has completed, the callback has run: with the first
    error to arrive, or with [null] when there was none. *)
Lemma async_each_complete arrivals :
  async_each (length arrivals) arrivals = Done (first_error arrivals).
Proof.
  unfold async_each. destruct arrivals as [|a rest]; [done|].
  rewrite decide_False by done. by apply each_loop_complete.
Qed.

Lemma first_error_None arrivals :
  first_error arrivals = None ↔ ∀ a, a ∈ arrivals → a = None.
Proof.
  induction arrivals as [|[err|] rest IH]; simpl.
  - split; [|done]. by intros _ a ?%elem_of_nil.
  - split; [done|]. intros H. apply (H (Some err)), list_elem_of_here.
  - rewrite IH. split.
    + intros H a [->|?]%elem_of_cons; auto.
    + intros H a Ha. apply H, list_elem_of_further, Ha.
Qed.

Lemma first_error_app before err after :
  (∀ a, a ∈ before → a = None) →
  first_error (before ++ Some err :: after) = Some err.
Proof.
  induction before as [|[e|] before IH]; intros Hnone; simpl; [done| |].
  - by specialize (Hnone (Some e) (list_elem_of_here _ _)).
  - apply IH. intros a Ha. apply Hnone, list_elem_of_further, Ha.
Qed.

(** The first error ends the operation at once: the callback has run
    with it whatever arrives later, and whether or not the other calls
    ever complete. *)
Lemma async_each_fails_at_once n before err after :
  (∀ a, a ∈ before → a = None) → length before < n →
  async_each n (before ++ Some err :: after) = Done (Some err).
Proof.
  intros Hnone Hlen. unfold async_each. rewrite decide_False by lia.
  assert (∀ completed, completed + length before < n →
            each_loop n completed (before ++ Some err :: after) = Done (Some err))
    as Hloop.
  { clear Hlen. induction before as [|[e|] before IH]; intros completed Hlt.
    - done.
    - by specialize (Hnone (Some e) (list_elem_of_here _ _)).
    - simpl in *. rewrite decide_False by lia. apply IH; [|lia].
      intros a Ha. apply Hnone, list_elem_of_further, Ha. }
  by apply Hloop.
Qed.

Lemma peer_reply_None url r : peer_reply url r = None ↔ ¬ peer_failed r.
Proof.
  destruct r as [e|statusCode body]; simpl.
  - split; [done | tauto].
  - destruct (Z.eqb_spec statusCode 200); simpl; split; try done; tauto.
Qed.

(** Every answer that has arrived is the answer to one request of the
    fan-out, so there are never more answers than instances.  The
    callback then has run with the first error among the answers; or,
    without an error, with success once all answers are in; or not yet. *)
Lemma each_loop_spec n arrivals completed :
  completed < n → (completed + length arrivals ≤ n)%nat →
  each_loop n completed arrivals =
    match first_error arrivals with
    | Some err => Done (Some err)
    | None => if decide (completed + length arrivals = n) then Done None else Pending
    end.
Proof.
  revert completed.
  induction arrivals as [|[err|] rest IH]; intros completed Hlt Hlen; simpl.
  - rewrite decide_False by lia. done.
  - done.
  - simpl in Hlen. destruct (decide (S completed = n)) as [Heq|Hne].
    + destruct rest as [|a rest]; [|simpl in Hlen; lia].
      simpl. rewrite decide_True by lia. done.
    + rewrite IH by lia. destruct (first_error rest); [done|].
      destruct (decide (S completed + length rest = n));
        [rewrite decide_True by lia | rewrite decide_False by lia]; done.
Qed.

Lemma async_each_spec n arrivals :
  (length arrivals ≤ n)%nat →
  async_each n arrivals =
    match first_error arrivals with
    | Some err => Done (Some err)
    | None => if decide (length arrivals = n) then Done None else Pending
    end.
Proof.
  intros Hlen. unfold async_each. destruct (decide (n = 0)) as [->|Hn].
  - destruct arrivals; [done | simpl in Hlen; lia].
  - rewrite each_loop_spec by lia. done.
Qed.

Lemma fanout_completion p preventCache recurse replies s :
  truthy recurse = true → (length replies ≤ length (instances s))%nat →
  (purgeCache p preventCache recurse replies s).2 =
    match first_error (map (λ reply, peer_reply (peer_url reply.1 p) reply.2) replies) with
    | Some err => Done (Some err)
    | None =>
        if decide (length replies = length (instances s)) then Done None
        else Pending
    end.
Proof.
  intros Hrec Hlen. unfold purgeCache. rewrite Hrec. cbn [snd].
  rewrite async_each_spec by by rewrite length_map.
  by rewrite length_map.
Qed.

(** What the middleware answers to a purge request, by the way the purge
    has completed. *)
Lemma middleware_purge_answer req replies kube s :
  truthy (query_purge req) || truthy (query_edit req) = true →
  (middleware req replies kube s).2 =
    match (purgeCache (path req) (query_edit req) (query_recurse req) replies s).2 with
    | Pending => NoAnswer
    | Done (Some err) => Send500 err
    | Done None => EndOK
    end.
Proof.
  intros Hpurge. unfold middleware. rewrite Hpurge.
  destruct (purgeCache _ _ _ _ _) as [s1 [|[err|]]]; done.
Qed.

(** C6: a recursive purge request, at any moment of its fan-out:
    [replies] are the answers that have arrived so far, in their order of
    arrival, each the answer to one of the requests sent (no condition
    says that every peer has answered).  As soon as one of them is a
    transport error or a status other than 200, the purge has called back
    with an error and the middleware has answered 500 with it, whatever
    the other peers answered or will answer; the error is that of the
    first failure to arrive.  The purge has called back with success, and
    the middleware has answered OK, exactly when every peer of the
    instance list has answered and none has failed; while answers are
    outstanding and none has failed there is no answer yet. *)
Theorem fanout_first_failure_wins req replies kube s :
  truthy (query_purge req) || truthy (query_edit req) = true →
  truthy (query_recurse req) = true →
  map fst replies ⊆+ instances s →
  let completion :=
    (purgeCache (path req) (query_edit req) (query_recurse req) replies s).2 in
  let res := (middleware req replies kube s).2 in
  ((∃ reply, reply ∈ replies ∧ peer_failed reply.2) →
     ∃ err, completion = Done (Some err) ∧ res = Send500 err) ∧
  (∀ before reply after err,
     replies = before ++ reply :: after →
     (∀ r, r ∈ before → ¬ peer_failed r.2) →
     peer_reply (peer_url reply.1 (path req)) reply.2 = Some err →
     completion = Done (Some err) ∧ res = Send500 err) ∧
  (completion = Done None ↔
     (∀ reply, reply ∈ replies → ¬ peer_failed reply.2) ∧
     map fst replies ≡ₚ instances s) ∧
  (res = EndOK ↔
     (∀ reply, reply ∈ replies → ¬ peer_failed reply.2) ∧
     map fst replies ≡ₚ instances s) ∧
  ((∀ reply, reply ∈ replies → ¬ peer_failed reply.2) →
   length replies < length (instances s) →
     completion = Pending ∧ res = NoAnswer).
Proof.
  intros Hpurge Hrec Hsub completion res.
  assert (length replies ≤ length (instances s))%nat as Hlen
    by (rewrite <- (length_map fst); by apply submseteq_length).
  assert (length replies = length (instances s) ↔ map fst replies ≡ₚ instances s)
    as Hall.
  { split.
    - intros Heq. apply submseteq_length_Permutation; [done|].
      rewrite length_map. lia.
    - intros Hperm%Permutation_length. by rewrite length_map in Hperm. }
  pose proof (fanout_completion (path req) (query_edit req) (query_recurse req)
                replies s Hrec Hlen) as Hc.
  pose proof (middleware_purge_answer req replies kube s Hpurge) as Hr.
  fold completion in Hc, Hr. fold res in Hr.
  set (arrivals :=
    map (λ reply, peer_reply (peer_url reply.1 (path req)) reply.2) replies) in *.
  assert (first_error arrivals = None ↔
          ∀ reply, reply ∈ replies → ¬ peer_failed reply.2) as Hnone.
  { rewrite first_error_None. subst arrivals. split.
    - intros H reply Hin. apply (peer_reply_None (peer_url reply.1 (path req))).
      apply H. apply list_elem_of_fmap. by exists reply.
    - intros H a (reply & -> & Hin)%list_elem_of_fmap.
      apply peer_reply_None. by apply H. }
  split; [|split; [|split; [|split]]].
  - intros (reply & Hin & Hfailed).
    destruct (first_error arrivals) as [err|] eqn:Hfirst.
    + exists err. by rewrite Hr, Hc.
    + exfalso. destruct Hnone as [Hnone _].
      by apply (Hnone eq_refl reply Hin).
  - intros before reply after err -> Hbefore Hreply.
    assert (first_error arrivals = Some err) as Hfirst.
    { subst arrivals. rewrite map_app. simpl. rewrite Hreply.
      apply first_error_app.
      intros a (r & -> & Hin)%list_elem_of_fmap.
      apply peer_reply_None. by apply Hbefore. }
    rewrite Hr, Hc, Hfirst. done.
  - rewrite <- Hnone, <- Hall, Hc.
    destruct (first_error arrivals); [split; [done | by intros [? _]]|].
    destruct (decide (length replies = length (instances s))); split;
      try done; by intros [_ ?].
  - rewrite <- Hnone, <- Hall, Hr, Hc.
    destruct (first_error arrivals); [split; [done | by intros [? _]]|].
    destruct (decide (length replies = length (instances s))); split;
      try done; by intros [_ ?].
  - intros Hok%Hnone Hlt. rewrite Hr, Hc, Hok.
    rewrite decide_False by lia. done.
Qed.

(** Three peers.  One answers 503 while another has not answered yet;
    and all three answer, the 503 last. *)
Lemma fanout_first_failure_wins_witness :
  let req := {| path := "/a"; query_purge := JStr "1";
                query_edit := JUndefined; query_recurse := JStr "1" |} in
  let s := set_instances ["10.0.0.1"; "10.0.0.2"; "10.0.0.3"] three_pages in
  let early := [("10.0.0.3", Http 200 "OK");
                ("10.0.0.2", Http 503 "Service Unavailable")] in
  let all := [("10.0.0.3", Http 200 "OK"); ("10.0.0.1", Http 200 "OK");
              ("10.0.0.2", Http 503 "Service Unavailable")] in
  (middleware req early (KubeTransportError "down") s).2 =
    Send500 (PurgeStatus "http://10.0.0.2:3000/a" 503) ∧
  (middleware req all (KubeTransportError "down") s).2 =
    Send500 (PurgeStatus "http://10.0.0.2:3000/a" 503).
Proof.
  intros req s early all. split.
  - destruct (fanout_first_failure_wins req early (KubeTransportError "down") s)
      as (_ & Hfirst & _).
    + reflexivity.
    + reflexivity.
    + apply (bool_decide_unpack _). vm_compute. exact I.
    + apply (Hfirst [("10.0.0.3", Http 200 "OK")]
               ("10.0.0.2", Http 503 "Service Unavailable") []).
      * reflexivity.
      * intros r [->|Hin%elem_of_nil]%elem_of_cons; simpl; tauto.
      * reflexivity.
  - destruct (fanout_first_failure_wins req all (KubeTransportError "down") s)
      as (_ & Hfirst & _).
    + reflexivity.
    + reflexivity.
    + apply (bool_decide_unpack _). vm_compute. exact I.
    + apply (Hfirst [("10.0.0.3", Http 200 "OK"); ("10.0.0.1", Http 200 "OK")]
               ("10.0.0.2", Http 503 "Service Unavailable") []).
      * reflexivity.
      * intros r [->|[->|Hin%elem_of_nil]%elem_of_cons]%elem_of_cons;
          simpl; tauto.
      * reflexivity.
Defined.

(** ** The peer directory refresh *)

Lemma updateInstances_outbox token kube s :
  outbox (updateInstances token kube s).1 = outbox s ++ [KubeList token].
Proof.
  unfold updateInstances. destruct kube as [e|statusCode items]; [done|].
  by destruct (negb (statusCode =? 200)%Z).
Qed.

(** C9: a refresh that gets status 200 replaces the instance list by the
    pod IPs of the answer, in the order of the answer, and calls back
    with success.  A refresh that gets a transport error or another
    status calls back with an error and leaves the state as it was, the
    instance list included; only the request it has sent is on record. *)
Theorem updateInstances_spec token kube s :
  let r := updateInstances token kube s in
  (∀ items, kube = KubeHttp 200 items →
     r.1 = set_instances (map podIP items) (send [KubeList token] s) ∧
     instances r.1 = map podIP items ∧ r.2 = Done None) ∧
  ((∃ e, kube = KubeTransportError e) ∨
   (∃ statusCode items, kube = KubeHttp statusCode items ∧ statusCode ≠ 200%Z) →
     r.1 = send [KubeList token] s ∧ instances r.1 = instances s ∧
     ∃ err, r.2 = Done (Some err)).
Proof.
  intros r. subst r. split.
  - intros items ->. done.
  - intros [[e ->]|(statusCode & items & -> & Hne)]; unfold updateInstances.
    + split; [done|]. split; [done|]. by eexists.
    + destruct (Z.eqb_spec statusCode 200) as [Heq|_]; [done|]. simpl.
      split; [done|]. split; [done|]. by eexists.
Qed.

Lemma updateInstances_spec_witness :
  let s := set_instances ["10.0.0.1"; "10.0.0.2"] three_pages in
  instances (updateInstances (JStr "token")
               (KubeHttp 200 [{| podIP := "10.0.0.7" |}]) s).1 = ["10.0.0.7"] ∧
  instances (updateInstances (JStr "token")
               (KubeHttp 503 [{| podIP := "10.0.0.7" |}]) s).1 =
    ["10.0.0.1"; "10.0.0.2"].
Proof.
  intros s.
  destruct (updateInstances_spec (JStr "token")
              (KubeHttp 200 [{| podIP := "10.0.0.7" |}]) s) as [Hok _].
  destruct (updateInstances_spec (JStr "token")
              (KubeHttp 503 [{| podIP := "10.0.0.7" |}]) s) as [_ Hfail].
  split.
  - apply (Hok [{| podIP := "10.0.0.7" |}]). reflexivity.
  - apply Hfail. right. exists 503%Z, [{| podIP := "10.0.0.7" |}].
    split; [reflexivity | lia].
Defined.

(** ** Purge requests at the request front *)

(** C8, as stated, fails: a request with [edit=1] and no [recurse], on a
    node that knows two peers, is answered OK and no request has been
    sent to any peer. *)
Lemma middleware_edit_recurses_counterexample :
  let req := {| path := "/a"; query_purge := JUndefined;
                query_edit := JStr "1"; query_recurse := JUndefined |} in
  let s := set_instances ["10.0.0.1"; "10.0.0.2"] three_pages in
  let r := middleware req [] (KubeTransportError "down") s in
  instances s = ["10.0.0.1"; "10.0.0.2"] ∧ r.2 = EndOK ∧ outbox r.1 = [].
Proof. vm_compute. repeat split. Qed.

(** C8, amended: a request with a truthy [edit] fans out exactly when
    its [recurse] parameter is truthy.  Without [recurse] no request is
    sent: the node deletes its own entry of the path, suppresses the path
    and answers OK.  With [recurse] one purge request carrying [edit=1]
    is sent to each address of the instance list; the only request that
    can follow them is the refresh of the instance list after a failed
    purge. *)
Theorem middleware_edit_recursion req replies kube s :
  truthy (query_edit req) = true →
  let r := middleware req replies kube s in
  (truthy (query_recurse req) = false →
     outbox r.1 = outbox s ∧ r.2 = EndOK ∧
     cache r.1 !! path req = None ∧
     noCache r.1 !! path req = Some (nextTimer s)) ∧
  (truthy (query_recurse req) = true →
     ∃ rest,
       outbox r.1 =
         outbox s ++
         map (λ instance, PeerPurge (peer_url instance (path req)) true)
             (instances s) ++ rest ∧
       (rest = [] ∨ rest = [KubeList (kubeToken s)])).
Proof.
  intros He r. subst r. unfold middleware. rewrite He, orb_true_r.
  split; intros Hr.
  - rewrite purgeCache_local by done. rewrite He. cbn [fst snd].
    rewrite noCache_set_cache, suppress_noCache.
    split; [by unfold suppress; destruct (noCache s !! path req)|].
    split; [done|]. split; [apply lookup_delete_eq | apply lookup_insert_eq].
  - pose proof (purgeCache_recurse (path req) (query_edit req) (query_recurse req)
                  replies s Hr) as Hs1.
    destruct (purgeCache _ _ _ _ _) as [s1 completion]. simpl in Hs1. subst s1.
    rewrite He.
    destruct completion as [|[err|]]; cbn [fst].
    + exists []. rewrite app_nil_r. by split; [|left].
    + destruct (truthy (kubeToken _)).
      * exists [KubeList (kubeToken s)]. split; [|by right].
        rewrite updateInstances_outbox. simpl. by rewrite <- app_assoc.
      * exists []. rewrite app_nil_r. by split; [|left].
    + exists []. rewrite app_nil_r. by split; [|left].
Qed.

Lemma middleware_edit_recursion_witness :
  let s := set_instances ["10.0.0.1"; "10.0.0.2"] three_pages in
  let local := {| path := "/a"; query_purge := JUndefined;
                  query_edit := JStr "1"; query_recurse := JUndefined |} in
  let recursive := {| path := "/a"; query_purge := JUndefined;
                      query_edit := JStr "1"; query_recurse := JStr "1" |} in
  let replies := [("10.0.0.2", Http 200 "OK"); ("10.0.0.1", Http 200 "OK")] in
  outbox (middleware local [] (KubeTransportError "down") s).1 = [] ∧
  ∃ rest,
    outbox (middleware recursive replies (KubeTransportError "down") s).1 =
      [PeerPurge "http://10.0.0.1:3000/a" true;
       PeerPurge "http://10.0.0.2:3000/a" true] ++ rest.
Proof.
  intros s local recursive replies.
  destruct (middleware_edit_recursion local [] (KubeTransportError "down") s)
    as [Hlocal _]; [reflexivity|].
  destruct (middleware_edit_recursion recursive replies
              (KubeTransportError "down") s) as [_ Hrec]; [reflexivity|].
  split.
  - apply Hlocal. reflexivity.
  - destruct Hrec as (rest & Hout & _); [reflexivity|].
    exists rest. exact Hout.
Defined.

(** ** The ancestor decomposition *)

Lemma split_nonempty sep s : split sep s ≠ [].
Proof.
  destruct s as [|c rest]; simpl; [done|].
  destruct (Ascii.eqb c sep); [done|]. by destruct (split sep rest).
Qed.

Lemma join_cons sep x l :
  l ≠ [] → join sep (x :: l) = x +:+ sep +:+ join sep l.
Proof. by destruct l. Qed.

(** Joining what [split] gives, on the same separator, gives the string
    back. *)
Lemma join_split sep s : join (String sep EmptyString) (split sep s) = s.
Proof.
  induction s as [|c rest IH]; simpl; [done|].
  destruct (Ascii.eqb_spec c sep) as [->|Hne].
  - rewrite join_cons by apply split_nonempty. simpl. by rewrite IH.
  - pose proof (split_nonempty sep rest) as Hrest.
    destruct (split sep rest) as [|segment segments]; [done|].
    destruct segments as [|segment' segments]; simpl in *; by rewrite <- IH.
Qed.

(** The last of the cumulative prefixes of a path is the path itself. *)
Lemma ancestors_last p : last (ancestors p) = Some p.
Proof.
  unfold ancestors. set (segments := split "/" p).
  assert (join "/" segments = p) as Hjoin by apply join_split.
  assert (segments ≠ []) as Hne by apply split_nonempty.
  rewrite last_lookup, length_imap, list_lookup_imap.
  destruct (segments !! pred (length segments)) as [segment|] eqn:Hlast.
  - simpl. rewrite <- (take_S_r _ _ _ Hlast).
    rewrite take_ge; [by rewrite Hjoin|].
    destruct segments; [done | simpl; lia].
  - apply lookup_ge_None in Hlast. destruct segments; [done | simpl in *; lia].
Qed.

Lemma elem_of_ancestors_self p : p ∈ ancestors p.
Proof.
  pose proof (ancestors_last p) as Hlast. rewrite last_lookup in Hlast.
  by apply list_elem_of_lookup_2 in Hlast.
Qed.

(** A purge that goes ahead leaves no truthy entry at any path of the
    record. *)
Lemma purge_path_itself id m data p s :
  byId s !! id = Some data → strict_eq (modified data) m = false →
  p ∈ paths data → truthy (js_get (cache (purge id m s)) p) = false.
Proof.
  intros Hid Hm Hp. rewrite (purge_changed id m data s) by done.
  unfold js_get. rewrite purge_urls_lookup.
  destruct (decide _) as [|Hn]; [done|].
  destruct (truthy (js_get (cache s) p)) eqn:Ht; [|done].
  exfalso. apply Hn. split; [|done].
  apply (elem_of_all_urls data p); [done | apply elem_of_ancestors_self].
Qed.

(** ** Start-up and timers *)

(** Without a token file the module starts with an empty instance list
    and no poll: nothing will ever fill the list. *)
Lemma startInstancePolling_no_token :
  startInstancePolling None empty_state = empty_state ∧
  instances empty_state = [] ∧ timeouts empty_state = ∅.
Proof. done. Qed.

(** When the timer of a suppression fires, the path can be cached again. *)
Lemma fire_lifts_suppression p kube s :
  let s' := (purgeCache p (JBool true) JUndefined [] s).1 in
  noCache (fire (nextTimer s) kube s') !! p = None.
Proof.
  intros s'. unfold fire.
  assert (timeouts s' !! nextTimer s = Some (Unsuppress p)) as ->.
  { subst s'. rewrite purgeCache_local by done. cbn [fst truthy].
    rewrite timeouts_set_cache, suppress_timeouts. apply lookup_insert_eq. }
  simpl. apply lookup_delete_eq.
Qed.

(** * Further properties of the module *)

(** ** Adding and looking up *)

(** A page added with a truthy payload is a cache hit: the middleware
    answers a plain request for its path with exactly that payload, and
    leaves the state alone. *)
Theorem middleware_serves_added id m html req replies kube s :
  truthy m = true → noCache s !! path req = None → truthy html = true →
  truthy (query_purge req) = false → truthy (query_edit req) = false →
  let s' := add id m (path req) html s in
  middleware req replies kube s' = (s', EndCached html).
Proof.
  intros Hm Hsup Hhtml Hp He s'.
  rewrite middleware_lookup by done.
  assert (js_get (cache s') (path req) = html) as ->; [|by rewrite Hhtml].
  subst s'. rewrite add_accepted by done. unfold js_get. simpl.
  by rewrite lookup_insert_eq.
Qed.

Lemma middleware_serves_added_witness :
  let s' := add "doc" (JStr "v1") "/a" (JStr "<a>") empty_state in
  middleware (lookup_request "/a") [] (KubeTransportError "down") s' =
    (s', EndCached (JStr "<a>")).
Proof.
  intros s'.
  apply (middleware_serves_added "doc" (JStr "v1") (JStr "<a>")
           (lookup_request "/a") [] (KubeTransportError "down") empty_state);
    reflexivity.
Defined.

Lemma set_add_twice x set : set_add x (set_add x set) = set_add x set.
Proof.
  unfold set_add at 1. rewrite decide_True; [done|].
  apply elem_of_set_add. by left.
Qed.

(** Rendering a path again for the same id overwrites the payload and
    changes nothing else: the record keeps the modification time of the
    first [add], whatever the second one brings, and lists the path once.
    In particular [add] with the same arguments twice is [add] once. *)
Theorem add_last_write_wins id m1 m2 p html1 html2 s :
  truthy m1 = true → truthy m2 = true →
  add id m2 p html2 (add id m1 p html1 s) = add id m1 p html2 s.
Proof.
  intros Hm1 Hm2. destruct (noCache s !! p) as [h|] eqn:Hsup.
  - assert (∀ m html, add id m p html s = s) as Hrefused.
    { intros m html. apply add_refused. right. rewrite Hsup. by eexists. }
    by rewrite !Hrefused.
  - rewrite (add_accepted id m1 p html1 s) by done.
    rewrite (add_accepted id m1 p html2 s) by done.
    rewrite add_accepted by done.
    apply state_eq; simpl; try done.
    + apply insert_insert_eq.
    + rewrite lookup_insert_eq. simpl. rewrite insert_insert_eq.
      f_equal. unfold paths_add. simpl. by rewrite set_add_twice.
Qed.

Lemma add_last_write_wins_witness :
  add "doc" (JStr "v2") "/a" (JStr "<new>")
      (add "doc" (JStr "v1") "/a" (JStr "<old>") empty_state) =
    add "doc" (JStr "v1") "/a" (JStr "<new>") empty_state.
Proof. apply add_last_write_wins; reflexivity. Defined.

(** ** The suppression window *)

Lemma suppress_nextTimer p s : nextTimer (suppress p s) = S (nextTimer s).
Proof. unfold suppress. by destruct (noCache s !! p). Qed.

Lemma suppress_cache p s : cache (suppress p s) = cache s.
Proof. unfold suppress. by destruct (noCache s !! p). Qed.

Lemma purgeCache_suppressing p preventCache recurse replies s :
  truthy preventCache = true → truthy recurse = false →
  (purgeCache p preventCache recurse replies s).1 =
    set_cache (delete p) (suppress p s).
Proof. intros Hp Hr. rewrite purgeCache_local by done. by rewrite Hp. Qed.

(** The whole window: after a local purge with [preventCache], [add] for
    the path is refused; once the timer of the suppression has fired the
    path is no longer suppressed, no timer is left for it, and [add]
    caches the page again. *)
Theorem suppression_window id m p html preventCache recurse replies kube s :
  truthy preventCache = true → truthy recurse = false → truthy m = true →
  let s1 := (purgeCache p preventCache recurse replies s).1 in
  let s2 := fire (nextTimer s) kube s1 in
  add id m p html s1 = s1 ∧
  noCache s2 !! p = None ∧ timeouts s2 !! nextTimer s = None ∧
  js_get (cache (add id m p html s2)) p = html.
Proof.
  intros Hp Hr Hm s1 s2.
  assert (s1 = set_cache (delete p) (suppress p s)) as Hs1
    by by apply purgeCache_suppressing.
  assert (timeouts s1 !! nextTimer s = Some (Unsuppress p)) as Htimer.
  { rewrite Hs1, timeouts_set_cache, suppress_timeouts. apply lookup_insert_eq. }
  assert (noCache s2 !! p = None) as Hlifted.
  { subst s2. unfold fire. rewrite Htimer. simpl. apply lookup_delete_eq. }
  split; [|split; [done|split]].
  - apply add_refused. right. rewrite Hs1, noCache_set_cache, suppress_noCache.
    rewrite lookup_insert_eq. by eexists.
  - subst s2. unfold fire. rewrite Htimer. simpl. apply lookup_delete_eq.
  - rewrite add_accepted by done. unfold js_get. simpl.
    by rewrite lookup_insert_eq.
Qed.

Lemma suppression_window_witness :
  let s1 := (purgeCache "/a" (JStr "1") JUndefined [] three_pages).1 in
  let s2 := fire 0 (KubeTransportError "down") s1 in
  add "doc2" (JStr "v2") "/a" (JStr "<a2>") s1 = s1 ∧
  js_get (cache (add "doc2" (JStr "v2") "/a" (JStr "<a2>") s2)) "/a" = JStr "<a2>".
Proof.
  intros s1 s2.
  destruct (suppression_window "doc2" (JStr "v2") "/a" (JStr "<a2>") (JStr "1")
              JUndefined [] (KubeTransportError "down") three_pages)
    as (Hrefused & _ & _ & Hcached); [reflexivity..|].
  split; [exact Hrefused | exact Hcached].
Defined.

(** Suppressing a path that is already suppressed extends the window, it
    does not add a second one: the first timer is cancelled, so that its
    firing changes nothing and the path stays suppressed; the path is
    released when the second timer fires. *)
Theorem suppression_rearmed p pc1 pc2 r1 r2 replies1 replies2 kube s :
  truthy pc1 = true → truthy pc2 = true →
  truthy r1 = false → truthy r2 = false →
  let s1 := (purgeCache p pc1 r1 replies1 s).1 in
  let s2 := (purgeCache p pc2 r2 replies2 s1).1 in
  fire (nextTimer s) kube s2 = s2 ∧
  noCache s2 !! p = Some (S (nextTimer s)) ∧
  noCache (fire (S (nextTimer s)) kube s2) !! p = None.
Proof.
  intros Hp1 Hp2 Hr1 Hr2 s1 s2.
  assert (s1 = set_cache (delete p) (suppress p s)) as Hs1
    by by apply purgeCache_suppressing.
  assert (s2 = set_cache (delete p) (suppress p s1)) as Hs2
    by by apply purgeCache_suppressing.
  assert (nextTimer s1 = S (nextTimer s)) as Hnext
    by (rewrite Hs1; apply suppress_nextTimer).
  assert (noCache s1 !! p = Some (nextTimer s)) as Hno1.
  { rewrite Hs1, noCache_set_cache, suppress_noCache. apply lookup_insert_eq. }
  assert (timeouts s2 = <[S (nextTimer s) := Unsuppress p]>
                          (delete (nextTimer s) (timeouts s1))) as Ht2.
  { rewrite Hs2, timeouts_set_cache, suppress_timeouts, Hno1, Hnext. done. }
  split; [|split].
  - unfold fire. rewrite Ht2, lookup_insert_ne by lia.
    by rewrite lookup_delete_eq.
  - rewrite Hs2, noCache_set_cache, suppress_noCache, Hnext.
    apply lookup_insert_eq.
  - unfold fire. rewrite Ht2, lookup_insert_eq. simpl. apply lookup_delete_eq.
Qed.

Lemma suppression_rearmed_witness :
  let s1 := (purgeCache "/a" (JStr "1") JUndefined [] three_pages).1 in
  let s2 := (purgeCache "/a" (JStr "1") JUndefined [] s1).1 in
  fire 0 (KubeTransportError "down") s2 = s2 ∧ noCache s2 !! "/a" = Some 1.
Proof.
  intros s1 s2.
  destruct (suppression_rearmed "/a" (JStr "1") (JStr "1") JUndefined JUndefined
              [] [] (KubeTransportError "down") three_pages)
    as (Hstale & Hstill & _); [reflexivity..|].
  split; [exact Hstale | exact Hstill].
Defined.

(** ** What a purge by id reaches *)

Lemma append_cons c a b : String c a +:+ b = String c (a +:+ b).
Proof. reflexivity. Qed.

Lemma append_assoc a b c : (a +:+ b) +:+ c = a +:+ b +:+ c.
Proof.
  induction a as [|x a IH]; [done|]. by rewrite !append_cons, IH.
Qed.

Lemma join_app sep l1 l2 :
  l1 ≠ [] → l2 ≠ [] →
  join sep (l1 ++ l2) = join sep l1 +:+ sep +:+ join sep l2.
Proof.
  intros Hl1 Hl2. induction l1 as [|x l1 IH]; [done|].
  destruct l1 as [|y l1].
  - simpl app. by rewrite join_cons.
  - change ((x :: y :: l1) ++ l2) with (x :: (y :: l1) ++ l2).
    rewrite join_cons by done. rewrite IH by done.
    rewrite (join_cons sep x (y :: l1)) by done.
    by rewrite !append_assoc.
Qed.

Lemma elem_of_ancestors p url :
  url ∈ ancestors p →
  ∃ i, i < length (split "/" p) ∧ url = join "/" (take (S i) (split "/" p)).
Proof.
  unfold ancestors. intros (i & Hi)%list_elem_of_lookup_1.
  apply list_lookup_imap_Some in Hi as (segment & Hseg & ->).
  exists i. split; [by eapply lookup_lt_Some|]. by rewrite (take_S_r _ _ _ Hseg).
Qed.

Lemma elem_of_all_urls_inv data url :
  url ∈ all_urls data → ∃ p, p ∈ paths data ∧ url ∈ ancestors p.
Proof.
  unfold all_urls. intros Hin%list_elem_of_In.
  apply in_concat in Hin as (l & Hl & Hurl).
  apply in_map_iff in Hl as (p & <- & Hp).
  exists p. by rewrite !list_elem_of_In.
Qed.

Lemma ancestors_cut p url :
  url ∈ ancestors p → url = p ∨ ∃ rest, p = url +:+ "/" +:+ rest.
Proof.
  intros (i & Hi & ->)%elem_of_ancestors.
  pose proof (join_split "/" p) as Hjoin.
  set (segments := split "/" p) in *.
  assert (take (S i) segments ≠ []) as Htake
    by (destruct segments; [simpl in Hi; lia | done]).
  pose proof (take_drop (S i) segments) as Hsplit.
  destruct (drop (S i) segments) as [|x rest] eqn:Hdrop.
  - left. rewrite app_nil_r in Hsplit. by rewrite Hsplit.
  - right. exists (join "/" (x :: rest)).
    rewrite <- Hjoin, <- Hsplit at 1. by apply join_app.
Qed.

(** The urls a path is decomposed into end with the path itself, and
    each of them is the path or the part of the path before one of its
    separators. *)
Theorem ancestors_boundary p :
  last (ancestors p) = Some p ∧
  ∀ url, url ∈ ancestors p → url = p ∨ ∃ rest, p = url +:+ "/" +:+ rest.
Proof. split; [apply ancestors_last | apply ancestors_cut]. Qed.

Lemma ancestors_boundary_witness :
  last (ancestors "/a/b/c") = Some "/a/b/c" ∧
  ("/a/b" = "/a/b/c" ∨ ∃ rest, "/a/b/c" = "/a/b" +:+ "/" +:+ rest).
Proof.
  destruct (ancestors_boundary "/a/b/c") as [Hlast Hurls].
  split; [exact Hlast|]. apply Hurls.
  apply list_elem_of_further, list_elem_of_further, list_elem_of_here.
Defined.

(** A purge by id reaches nothing else: a key whose cache entry it
    changes had a truthy entry, has none afterwards, and is a path of the
    record of the id or the part of such a path before a separator. *)
Theorem purge_reaches_ancestors_only id m k s :
  cache (purge id m s) !! k ≠ cache s !! k →
  cache (purge id m s) !! k = None ∧ truthy (js_get (cache s) k) = true ∧
  ∃ data p, byId s !! id = Some data ∧ strict_eq (modified data) m = false ∧
            p ∈ paths data ∧ (k = p ∨ ∃ rest, p = k +:+ "/" +:+ rest).
Proof.
  intros Hchanged.
  destruct (byId s !! id) as [data|] eqn:Hid;
    [|by unfold purge in Hchanged; rewrite Hid in Hchanged].
  destruct (strict_eq (modified data) m) eqn:Hm;
    [by unfold purge in Hchanged; rewrite Hid, Hm in Hchanged|].
  rewrite (purge_changed id m data s) in * by done.
  rewrite purge_urls_lookup in *.
  destruct (decide _) as [[Hin Ht]|]; [|done].
  split; [done|]. split; [done|].
  apply elem_of_all_urls_inv in Hin as (p & Hp & Hurl).
  exists data, p. repeat split; try done.
  by apply ancestors_cut.
Qed.

Lemma purge_reaches_ancestors_only_witness :
  cache (purge "doc" (JStr "v2") three_pages) !! "/a/b" = None ∧
  ∃ p, p ∈ ["/a/b/c"] ∧ ("/a/b" = p ∨ ∃ rest, p = "/a/b" +:+ "/" +:+ rest).
Proof.
  destruct (purge_reaches_ancestors_only "doc" (JStr "v2") "/a/b" three_pages)
    as (Hgone & _ & data & p & Hid & _ & Hp & Hcut).
  - vm_compute. discriminate.
  - split; [exact Hgone|]. exists p. split; [|exact Hcut].
    vm_compute in Hid. injection Hid as <-. exact Hp.
Defined.

(** After a purge by id that goes ahead, no page of the id is served from
    the cache: a plain request for any path of the record falls through
    to [next()]. *)
Theorem purge_then_miss id m data req replies kube s :
  byId s !! id = Some data → strict_eq (modified data) m = false →
  path req ∈ paths data →
  truthy (query_purge req) = false → truthy (query_edit req) = false →
  let s' := purge id m s in
  middleware req replies kube s' = (s', Next).
Proof.
  intros Hid Hm Hin Hp He s'. rewrite middleware_lookup by done.
  subst s'. by rewrite (purge_path_itself id m data).
Qed.

Lemma purge_then_miss_witness :
  let s' := purge "doc" (JStr "v2") three_pages in
  middleware (lookup_request "/a/b/c") [] (KubeTransportError "down") s' =
    (s', Next).
Proof.
  intros s'.
  apply (purge_then_miss "doc" (JStr "v2")
           {| paths := ["/a/b/c"]; modified := JStr "v1" |}
           (lookup_request "/a/b/c")); try reflexivity.
  apply list_elem_of_here.
Defined.

(** ** The fan-out while answers are outstanding *)

Lemma each_loop_waits n arrivals completed :
  (∀ a, a ∈ arrivals → a = None) → completed + length arrivals < n →
  each_loop n completed arrivals = Pending.
Proof.
  revert completed.
  induction arrivals as [|[err|] rest IH]; intros completed Hnone Hlen.
  - done.
  - by specialize (Hnone (Some err) (list_elem_of_here _ _)).
  - simpl in *. rewrite decide_False by lia. apply IH; [|lia].
    intros a Ha. apply Hnone, list_elem_of_further, Ha.
Qed.

Lemma purgeCache_fanout p preventCache recurse replies s :
  truthy recurse = true →
  purgeCache p preventCache recurse replies s =
    (send (map (λ instance, PeerPurge (peer_url instance p) (truthy preventCache))
               (instances s)) s,
     async_each (length (instances s))
       (map (λ reply, peer_reply (peer_url reply.1 p) reply.2) replies)).
Proof. unfold purgeCache. by intros ->. Qed.

(** A failure ends a recursive purge at once: when the first failing
    answer arrives, the answers before it being successes, the middleware
    answers 500 with its error, whether or not the remaining peers ever
    answer. *)
Theorem fanout_fails_at_once req before reply after err kube s :
  truthy (query_purge req) || truthy (query_edit req) = true →
  truthy (query_recurse req) = true →
  (∀ r, r ∈ before → ¬ peer_failed r.2) →
  length before < length (instances s) →
  peer_reply (peer_url reply.1 (path req)) reply.2 = Some err →
  (middleware req (before ++ reply :: after) kube s).2 = Send500 err.
Proof.
  intros Hpurge Hrec Hbefore Hlen Hreply. unfold middleware.
  rewrite Hpurge, purgeCache_fanout by done.
  rewrite map_app. simpl. rewrite Hreply.
  rewrite async_each_fails_at_once; [done| |by rewrite length_map].
  intros a (r & -> & Hin)%list_elem_of_fmap.
  apply peer_reply_None. by apply Hbefore.
Qed.

Lemma fanout_fails_at_once_witness :
  let req := {| path := "/a"; query_purge := JStr "1";
                query_edit := JUndefined; query_recurse := JStr "1" |} in
  let s := set_instances ["10.0.0.1"; "10.0.0.2"; "10.0.0.3"] three_pages in
  (middleware req [("10.0.0.3", Http 200 "OK"); ("10.0.0.1", TransportError "ECONNREFUSED")]
     (KubeTransportError "down") s).2 = Send500 (NetError "ECONNREFUSED").
Proof.
  intros req s.
  apply (fanout_fails_at_once req [("10.0.0.3", Http 200 "OK")]
           ("10.0.0.1", TransportError "ECONNREFUSED") []); try reflexivity.
  - intros r [->|Hin%elem_of_nil]%elem_of_cons; simpl; tauto.
  - simpl. lia.
Defined.

(** While answers are outstanding and none has failed, a recursive purge
    request has no answer yet: the purge callback has not run, the
    requests are out and the state is otherwise untouched. *)
Theorem fanout_waits req replies kube s :
  truthy (query_purge req) || truthy (query_edit req) = true →
  truthy (query_recurse req) = true →
  (∀ r, r ∈ replies → ¬ peer_failed r.2) →
  length replies < length (instances s) →
  middleware req replies kube s =
    (send (map (λ instance,
                  PeerPurge (peer_url instance (path req)) (truthy (query_edit req)))
               (instances s)) s,
     NoAnswer).
Proof.
  intros Hpurge Hrec Hok Hlen. unfold middleware.
  rewrite Hpurge, purgeCache_fanout by done.
  unfold async_each. rewrite decide_False by lia.
  rewrite each_loop_waits; [done| |by rewrite length_map].
  intros a (r & -> & Hin)%list_elem_of_fmap.
  apply peer_reply_None. by apply Hok.
Qed.

Lemma fanout_waits_witness :
  let req := {| path := "/a"; query_purge := JStr "1";
                query_edit := JUndefined; query_recurse := JStr "1" |} in
  let s := set_instances ["10.0.0.1"; "10.0.0.2"] three_pages in
  (middleware req [("10.0.0.2", Http 200 "OK")] (KubeTransportError "down") s).2 =
    NoAnswer.
Proof.
  intros req s.
  rewrite (fanout_waits req [("10.0.0.2", Http 200 "OK")]
             (KubeTransportError "down") s); try reflexivity.
  - intros r [->|Hin%elem_of_nil]%elem_of_cons; simpl; [lia | tauto].
  - simpl. lia.
Defined.

(** ** The receiving end of the fan-out *)


(** ** A failed purge and the instance list *)

(** When a purge fails, the middleware answers 500 and, if it has a
    token, asks the orchestration API for the instance list, once: the
    requests on record are those that were, those of the fan-out, and
    that one request after them.  Status 200 replaces the list, anything
    else leaves it.  Without a token it asks nothing, and the list and
    the rest of the state are as the purge left them. *)
Theorem failed_purge_refreshes req replies kube err s :
  truthy (query_purge req) || truthy (query_edit req) = true →
  (purgeCache (path req) (query_edit req) (query_recurse req) replies s).2 =
    Done (Some err) →
  let r := middleware req replies kube s in
  let fanout :=
    map (λ instance,
           PeerPurge (peer_url instance (path req)) (truthy (query_edit req)))
        (instances s) in
  r.2 = Send500 err ∧
  (truthy (kubeToken s) = true →
     outbox r.1 = outbox s ++ fanout ++ [KubeList (kubeToken s)] ∧
     last (outbox r.1) = Some (KubeList (kubeToken s)) ∧
     instances r.1 =
       match kube with
       | KubeHttp statusCode items =>
           if (statusCode =? 200)%Z then map podIP items else instances s
       | KubeTransportError _ => instances s
       end) ∧
  (truthy (kubeToken s) = false →
     r.1 = (purgeCache (path req) (query_edit req) (query_recurse req) replies s).1 ∧
     outbox r.1 = outbox s ++ fanout ∧
     instances r.1 = instances s).
Proof.
  intros Hpurge Hfailed r fanout. subst r fanout. unfold middleware.
  rewrite Hpurge.
  destruct (truthy (query_recurse req)) eqn:Hrec;
    [|by rewrite purgeCache_local in Hfailed].
  rewrite purgeCache_fanout in * by done. simpl in Hfailed. rewrite Hfailed.
  simpl. split; [done|]. split; intros Htoken; rewrite Htoken.
  - split; [|split].
    + rewrite updateInstances_outbox. simpl. by rewrite <- app_assoc.
    + rewrite updateInstances_outbox. by rewrite last_snoc.
    + unfold updateInstances. destruct kube as [e|statusCode items]; [done|].
      by destruct (statusCode =? 200)%Z.
  - done.
Qed.

Lemma failed_purge_refreshes_witness :
  let req := {| path := "/a"; query_purge := JStr "1";
                query_edit := JUndefined; query_recurse := JStr "1" |} in
  let s := set_kubeToken (JStr "token") (set_instances ["10.0.0.1"] three_pages) in
  instances (middleware req [("10.0.0.1", TransportError "ECONNREFUSED")]
               (KubeHttp 200 [{| podIP := "10.0.0.7" |}]) s).1 = ["10.0.0.7"] ∧
  outbox (middleware req [("10.0.0.1", TransportError "ECONNREFUSED")]
            (KubeHttp 200 [{| podIP := "10.0.0.7" |}]) s).1 =
    [] ++ [PeerPurge "http://10.0.0.1:3000/a" false] ++ [KubeList (JStr "token")].
Proof.
  intros req s.
  destruct (failed_purge_refreshes req [("10.0.0.1", TransportError "ECONNREFUSED")]
              (KubeHttp 200 [{| podIP := "10.0.0.7" |}])
              (NetError "ECONNREFUSED") s) as (_ & Htoken & _);
    [reflexivity | reflexivity |].
  destruct Htoken as (Hout & _ & Hinst); [reflexivity|].
  split; [exact Hinst | exact Hout].
Defined.

(** ** Invariants of the module's life *)

Lemma updateInstances_only_network token kube s :
  only_network s (updateInstances token kube s).1.
Proof.
  unfold updateInstances. destruct kube as [e|statusCode items];
    [by repeat split|].
  destruct (negb (statusCode =? 200)%Z); by repeat split.
Qed.

(** Where a request leaves the state: as it was, with the entry of its
    path deleted, with the path suppressed as well, or changed in the
    instance list and the requests sent only. *)
Lemma middleware_state req replies kube s :
  let s' := (middleware req replies kube s).1 in
  s' = s ∨ s' = set_cache (delete (path req)) s ∨
  s' = set_cache (delete (path req)) (suppress (path req) s) ∨
  only_network s s'.
Proof.
  intros s'. subst s'. unfold middleware.
  destruct (truthy (query_purge req) || truthy (query_edit req));
    [|destruct (truthy (js_get _ _)); by left].
  destruct (truthy (query_recurse req)) eqn:Hrec.
  - right. right. right. rewrite purgeCache_fanout by done.
    destruct (async_each _ _) as [|[err|]]; cbn [fst]; try by repeat split.
    destruct (truthy (kubeToken _)); [|by repeat split].
    apply (updateInstances_only_network _ kube (send _ s)).
  - rewrite purgeCache_local by done. cbn [fst].
    destruct (truthy (query_edit req)); tauto.
Qed.

Lemma timers_ok_fields s s' :
  noCache s' = noCache s → timeouts s' = timeouts s →
  nextTimer s' = nextTimer s → kubeToken s' = kubeToken s →
  timers_ok s → timers_ok s'.
Proof. unfold timers_ok. by intros -> -> -> ->. Qed.

Lemma timers_ok_suppress p s : timers_ok s → timers_ok (suppress p s).
Proof.
  intros (Hmap & Hfresh & Hpoll & Hnone).
  assert (timeouts s !! nextTimer s = None) as Hnew.
  { destruct (timeouts s !! nextTimer s) eqn:H; [|done].
    assert (nextTimer s < nextTimer s) by (apply Hfresh; by eexists). lia. }
  assert (kubeToken (suppress p s) = kubeToken s) as Htoken
    by (unfold suppress; by destruct (noCache s !! p)).
  unfold timers_ok.
  rewrite suppress_noCache, suppress_timeouts, suppress_nextTimer, Htoken.
  set (T := match noCache s !! p with
            | Some h => delete h (timeouts s)
            | None => timeouts s
            end).
  assert (∀ h a, T !! h = Some a → timeouts s !! h = Some a) as HT.
  { intros h a. subst T. destruct (noCache s !! p); [|done].
    by intros [_ ?]%lookup_delete_Some. }
  assert (∀ h, T !! h ≠ Some (Unsuppress p)) as HTp.
  { intros h Hh. pose proof (HT _ _ Hh) as Hh'. apply Hmap in Hh'.
    subst T. rewrite Hh' in Hh. by rewrite lookup_delete_eq in Hh. }
  assert (∀ h p', p' ≠ p → timeouts s !! h = Some (Unsuppress p') →
                  T !! h = Some (Unsuppress p')) as HTother.
  { intros h p' Hne Hh. subst T. destruct (noCache s !! p) as [h0|] eqn:H0; [|done].
    apply lookup_delete_Some. split; [|done]. intros <-.
    apply Hmap in H0. congruence. }
  split; [|split; [|split]].
  - intros p' h. destruct (decide (p' = p)) as [->|Hp].
    + rewrite lookup_insert_eq. destruct (decide (h = nextTimer s)) as [->|Hh].
      * by rewrite lookup_insert_eq.
      * rewrite lookup_insert_ne by done. split; [congruence|].
        intros H. by apply HTp in H.
    + rewrite lookup_insert_ne by done.
      destruct (decide (h = nextTimer s)) as [->|Hh].
      * rewrite lookup_insert_eq. split; [|congruence].
        intros H%Hmap. congruence.
      * rewrite lookup_insert_ne by done. rewrite Hmap. split; [by apply HTother|].
        apply HT.
  - intros h [a Ha]. destruct (decide (h = nextTimer s)) as [->|Hh]; [lia|].
    rewrite lookup_insert_ne in Ha by done.
    assert (h < nextTimer s) by (apply Hfresh; eexists; by apply HT). lia.
  - intros h1 h2 H1 H2.
    destruct (decide (h1 = nextTimer s)) as [->|?];
      [by rewrite lookup_insert_eq in H1|].
    destruct (decide (h2 = nextTimer s)) as [->|?];
      [by rewrite lookup_insert_eq in H2|].
    rewrite lookup_insert_ne in H1, H2 by done. eauto.
  - intros Hnull h Hh.
    destruct (decide (h = nextTimer s)) as [->|?];
      [by rewrite lookup_insert_eq in Hh|].
    rewrite lookup_insert_ne in Hh by done. by apply (Hnone Hnull h), HT.
Qed.

Lemma timers_ok_fire h kube s : timers_ok s → timers_ok (fire h kube s).
Proof.
  intros Hok. pose proof Hok as (Hmap & Hfresh & Hpoll & Hnone).
  unfold fire. destruct (timeouts s !! h) as [[p|]|] eqn:Hh; [| |done].
  - (* the timer of a suppression *)
    unfold timers_ok. simpl.
    pose proof (proj2 (Hmap p h) Hh) as Hp.
    split; [|split; [|split]].
    + intros p' h'. destruct (decide (p' = p)) as [->|Hne].
      * rewrite lookup_delete_eq. split; [done|].
        intros [Hhh' H]%lookup_delete_Some. apply Hmap in H. congruence.
      * rewrite lookup_delete_ne by done. rewrite Hmap. split.
        -- intros H. apply lookup_delete_Some. split; [|done].
           intros <-. congruence.
        -- by intros [_ ?]%lookup_delete_Some.
    + intros h' [a [_ Ha]%lookup_delete_Some]. apply Hfresh. by eexists.
    + intros h1 h2 [_ H1]%lookup_delete_Some [_ H2]%lookup_delete_Some. eauto.
    + intros Hnull h' [_ H]%lookup_delete_Some. by apply (Hnone Hnull h').
  - (* the poll *)
    destruct (updateInstances_only_network (kubeToken (clearTimeout h s)) kube
                (clearTimeout h s)) as (_ & _ & Hno & Htoken & Htime & Hnext).
    remember (updateInstances (kubeToken (clearTimeout h s)) kube
                (clearTimeout h s)).1 as s2 eqn:Hs2.
    clear Hs2. simpl in Hno, Htoken, Htime, Hnext.
    unfold timers_ok, setTimeout. simpl. rewrite Hno, Htoken, Htime, Hnext.
    assert (timeouts s !! nextTimer s = None) as Hnew.
    { destruct (timeouts s !! nextTimer s) eqn:H; [|done].
      assert (nextTimer s < nextTimer s) by (apply Hfresh; by eexists). lia. }
    split; [|split; [|split]].
    + intros p' h'. rewrite Hmap.
      destruct (decide (h' = nextTimer s)) as [->|Hne].
      * rewrite lookup_insert_eq, Hnew. split; congruence.
      * rewrite lookup_insert_ne by done. split.
        -- intros H. apply lookup_delete_Some. split; [|done].
           intros <-. congruence.
        -- by intros [_ ?]%lookup_delete_Some.
    + intros h' [a Ha]. destruct (decide (h' = nextTimer s)) as [->|Hne]; [lia|].
      rewrite lookup_insert_ne in Ha by done.
      apply lookup_delete_Some in Ha as [_ Ha].
      assert (h' < nextTimer s) by (apply Hfresh; by eexists). lia.
    + assert (∀ h', h' ≠ nextTimer s →
                <[nextTimer s := Poll]> (delete h (timeouts s)) !! h' ≠ Some Poll)
        as Hsingle.
      { intros h' Hne. rewrite lookup_insert_ne by done.
        intros [Hhh' H]%lookup_delete_Some. apply Hhh'. by apply Hpoll. }
      intros h1 h2 H1 H2.
      destruct (decide (h1 = nextTimer s)) as [->|?];
        [|by apply Hsingle in H1].
      destruct (decide (h2 = nextTimer s)) as [->|?];
        [done | by apply Hsingle in H2].
    + intros Hnull. by destruct (Hnone Hnull h).
Qed.

Lemma timers_ok_start tokenFile :
  timers_ok (startInstancePolling tokenFile empty_state).
Proof.
  destruct tokenFile as [token|]; unfold timers_ok; simpl.
  - split; [|split; [|split]].
    + intros p h. rewrite lookup_empty. split; [done|].
      intros H. destruct (decide (h = 0)) as [->|?].
      * by rewrite lookup_insert_eq in H.
      * rewrite lookup_insert_ne in H by done. by rewrite lookup_empty in H.
    + intros h [a Ha]. destruct (decide (h = 0)) as [->|?]; [lia|].
      rewrite lookup_insert_ne in Ha by done. by rewrite lookup_empty in Ha.
    + intros h1 h2 H1 H2.
      destruct (decide (h1 = 0)) as [->|?].
      * destruct (decide (h2 = 0)) as [->|?]; [done|].
        rewrite lookup_insert_ne in H2 by done. by rewrite lookup_empty in H2.
      * rewrite lookup_insert_ne in H1 by done. by rewrite lookup_empty in H1.
    + done.
  - split; [|split; [|split]].
    + intros p h. by rewrite !lookup_empty.
    + intros h [a Ha]. by rewrite lookup_empty in Ha.
    + intros h1 h2 H1. by rewrite lookup_empty in H1.
    + intros _ h. by rewrite lookup_empty.
Qed.

Lemma add_fields id m p html s :
  noCache (add id m p html s) = noCache s ∧
  timeouts (add id m p html s) = timeouts s ∧
  nextTimer (add id m p html s) = nextTimer s ∧
  kubeToken (add id m p html s) = kubeToken s ∧
  instances (add id m p html s) = instances s ∧
  outbox (add id m p html s) = outbox s.
Proof.
  unfold add. destruct (negb (truthy m)); [done|].
  by destruct (bool_decide _).
Qed.

Lemma timers_ok_step e s : timers_ok s → timers_ok (step e s).
Proof.
  intros Hok. destruct e as [req replies kube|id m p html|id m|h kube]; simpl.
  - destruct (middleware_state req replies kube s)
      as [->|[->|[->|(_ & _ & ? & ? & ? & ?)]]]; try done.
    + by apply timers_ok_suppress.
    + by apply (timers_ok_fields s).
  - destruct (add_fields id m p html s) as (? & ? & ? & ? & _).
    by apply (timers_ok_fields s).
  - destruct (purge_only_cache id m s) as (_ & ? & _ & ? & ? & ? & _).
    by apply (timers_ok_fields s).
  - by apply timers_ok_fire.
Qed.

Lemma run_snoc tokenFile events e :
  run tokenFile (events ++ [e]) = step e (run tokenFile events).
Proof. unfold run. by rewrite foldl_app. Qed.

Lemma timers_ok_run tokenFile events : timers_ok (run tokenFile events).
Proof.
  induction events as [|e events IH] using rev_ind.
  - apply timers_ok_start.
  - rewrite run_snoc. by apply timers_ok_step.
Qed.

(** Whatever happens to the module, its suppression map and its timers
    fit together: every suppressed path has its one pending timer, which
    lifts the suppression, and there is no other suppression timer, so
    timers do not pile up; a handle is never handed out twice; polls of
    the instance list never overlap, and without a token there is none. *)
Theorem run_keeps_timers_ok tokenFile events :
  let s := run tokenFile events in
  (∀ p h, noCache s !! p = Some h ↔ timeouts s !! h = Some (Unsuppress p)) ∧
  (∀ h, is_Some (timeouts s !! h) → h < nextTimer s) ∧
  (∀ h1 h2, timeouts s !! h1 = Some Poll → timeouts s !! h2 = Some Poll → h1 = h2) ∧
  (kubeToken s = JNull → ∀ h, timeouts s !! h ≠ Some Poll).
Proof. apply timers_ok_run. Qed.

Lemma NoDup_set_add x set : NoDup set → NoDup (set_add x set).
Proof.
  intros Hset. unfold set_add. destruct (decide (x ∈ set)); [done|].
  apply NoDup_app. split; [done|]. split; [|apply NoDup_singleton].
  intros y Hy ->%list_elem_of_singleton. done.
Qed.

Lemma index_ok_shrink s s' :
  byId s' = byId s →
  (∀ p, is_Some (cache s' !! p) → is_Some (cache s !! p)) →
  index_ok s → index_ok s'.
Proof.
  intros Hid Hcache [Hrec Hidx]. unfold index_ok. rewrite Hid. split; [done|].
  intros p Hp. by apply Hidx, Hcache.
Qed.

Lemma index_ok_add id m p html s : index_ok s → index_ok (add id m p html s).
Proof.
  intros [Hrec Hidx].
  destruct (truthy m) eqn:Hm; [|by rewrite add_refused by by left].
  destruct (noCache s !! p) as [h|] eqn:Hsup;
    [rewrite add_refused; [done|right; by eexists]|].
  rewrite add_accepted by done. unfold index_ok. simpl.
  set (data := default {| paths := []; modified := m |} (byId s !! id)).
  assert (truthy (modified data) = true ∧ NoDup (paths data)) as [Hdm Hdp].
  { subst data. destruct (byId s !! id) as [d|] eqn:Hd; simpl.
    - by destruct (Hrec id d Hd) as (? & _ & ?).
    - split; [done | apply NoDup_nil_2]. }
  split.
  - intros id' data'. destruct (decide (id' = id)) as [->|Hne].
    + rewrite lookup_insert_eq. intros [= <-]. simpl. split; [done|]. split.
      * intros Hnil. assert (p ∈ set_add p (paths data)) as Hin
          by (apply elem_of_set_add; by left).
        rewrite Hnil in Hin. by apply elem_of_nil in Hin.
      * by apply NoDup_set_add.
    + rewrite lookup_insert_ne by done. apply Hrec.
  - intros p' Hp'. destruct (decide (p' = p)) as [->|Hne].
    + exists id, (paths_add p data). rewrite lookup_insert_eq. split; [done|].
      apply elem_of_set_add. by left.
    + rewrite lookup_insert_ne in Hp' by done.
      destruct (Hidx p' Hp') as (id0 & data0 & Hid0 & Hin0).
      destruct (decide (id0 = id)) as [->|Hne0].
      * exists id, (paths_add p data). rewrite lookup_insert_eq. split; [done|].
        apply elem_of_set_add. right. subst data. by rewrite Hid0.
      * exists id0, data0. by rewrite lookup_insert_ne.
Qed.

Lemma purge_cache_shrinks id m s k :
  is_Some (cache (purge id m s) !! k) → cache (purge id m s) !! k = cache s !! k.
Proof.
  unfold purge. destruct (byId s !! id) as [data|]; [|done].
  destruct (strict_eq (modified data) m); [done|].
  rewrite purge_paths_flat, purge_urls_lookup.
  destruct (decide _); [by intros [? ?] | done].
Qed.

Lemma fire_keeps_pages h kube s :
  cache (fire h kube s) = cache s ∧ byId (fire h kube s) = byId s.
Proof.
  unfold fire. destruct (timeouts s !! h) as [[p|]|]; [done| |done].
  destruct (updateInstances_only_network (kubeToken (clearTimeout h s)) kube
              (clearTimeout h s)) as (Hcache & Hid & _).
  by simpl in *.
Qed.

Lemma suppress_byId p s : byId (suppress p s) = byId s.
Proof. unfold suppress. by destruct (noCache s !! p). Qed.

Lemma cache_set_cache f s : cache (set_cache f s) = f (cache s).
Proof. reflexivity. Qed.

Lemma index_ok_step e s : index_ok s → index_ok (step e s).
Proof.
  intros Hok. destruct e as [req replies kube|id m p html|id m|h kube]; simpl.
  - destruct (middleware_state req replies kube s)
      as [->|[->|[->|(Hcache & Hid & _)]]]; try done.
    + apply (index_ok_shrink s); [done| |done]. simpl.
      intros p [v [_ Hv]%lookup_delete_Some]. by eexists.
    + apply (index_ok_shrink s); [apply suppress_byId| |done].
      rewrite cache_set_cache, suppress_cache. intros p [v [_ Hv]%lookup_delete_Some]. by eexists.
    + apply (index_ok_shrink s); [done| |done]. by rewrite Hcache.
  - by apply index_ok_add.
  - apply (index_ok_shrink s); [apply purge_only_cache| |done].
    intros k Hk. by rewrite <- (purge_cache_shrinks id m).
  - destruct (fire_keeps_pages h kube s) as [Hcache Hid].
    apply (index_ok_shrink s); [done| |done]. by rewrite Hcache.
Qed.

Lemma index_ok_run tokenFile events : index_ok (run tokenFile events).
Proof.
  induction events as [|e events IH] using rev_ind.
  - split.
    + intros id data. by destruct tokenFile.
    + intros p [v Hv]. by destruct tokenFile.
  - rewrite run_snoc. by apply index_ok_step.
Qed.

(** Whatever happens to the module, its content index and its cache
    store fit together: every record has a truthy modification time and
    a non-empty set of paths without duplicates, and every path with a
    cache entry is listed by the record of some id, so that a purge by id
    can reach it. *)
Theorem run_keeps_index_ok tokenFile events :
  let s := run tokenFile events in
  (∀ id data, byId s !! id = Some data →
     truthy (modified data) = true ∧ paths data ≠ [] ∧ NoDup (paths data)) ∧
  (∀ p, is_Some (cache s !! p) →
     ∃ id data, byId s !! id = Some data ∧ p ∈ paths data).
Proof. apply index_ok_run. Qed.

Lemma add_record_grows id m p html s id' data :
  byId s !! id' = Some data →
  ∃ data', byId (add id m p html s) !! id' = Some data' ∧
           modified data' = modified data ∧ paths data ⊆ paths data'.
Proof.
  intros Hid'. unfold add. destruct (negb (truthy m)); [by exists data|].
  destruct (bool_decide _); [by exists data|]. simpl.
  destruct (decide (id' = id)) as [->|Hne].
  - rewrite lookup_insert_eq, Hid'. eexists. split; [done|]. simpl.
    split; [done|]. intros q Hq. apply elem_of_set_add. by right.
  - rewrite lookup_insert_ne by done. by exists data.
Qed.

Lemma step_byId e s :
  match e with
  | OnAdd _ _ _ _ => True
  | _ => byId (step e s) = byId s
  end.
Proof.
  destruct e as [req replies kube|id m p html|id m|h kube]; simpl; [|done| |].
  - destruct (middleware_state req replies kube s)
      as [->|[->|[->|(_ & Hid & _)]]]; try done. apply suppress_byId.
  - apply purge_only_cache.
  - apply fire_keeps_pages.
Qed.

(** Nothing that happens to the module takes a record out of the content
    index, changes its modification time or takes a path off it: after
    any events, the record of an id still has the modification time it
    had, and at least the paths it had. *)
Theorem index_only_grows events id data s :
  byId s !! id = Some data →
  ∃ data', byId (foldl (λ s e, step e s) s events) !! id = Some data' ∧
           modified data' = modified data ∧ paths data ⊆ paths data'.
Proof.
  revert s data. induction events as [|e events IH]; intros s data Hid.
  - by exists data.
  - simpl.
    assert (∃ data1, byId (step e s) !! id = Some data1 ∧
              modified data1 = modified data ∧ paths data ⊆ paths data1)
      as (data1 & Hid1 & Hm1 & Hp1).
    { pose proof (step_byId e s) as Hstep.
      destruct e as [req replies kube|id0 m p html|id0 m|h kube];
        try (rewrite Hstep; by exists data).
      by apply add_record_grows. }
    destruct (IH _ _ Hid1) as (data' & Hid' & Hm' & Hp').
    exists data'. split; [done|]. split; [congruence|]. by etrans.
Qed.

Lemma index_only_grows_witness :
  let s' := foldl (λ s e, step e s) three_pages
              [OnPurge "doc" (JStr "v2");
               OnAdd "doc" (JStr "v2") "/a/b/d" (JStr "<d>");
               OnRequest (peer_request "/a/b/c" true) [] (KubeTransportError "down")] in
  ∃ data', byId s' !! "doc" = Some data' ∧ modified data' = JStr "v1" ∧
           ["/a/b/c"] ⊆ paths data'.
Proof.
  intros s'.
  apply (index_only_grows _ "doc" {| paths := ["/a/b/c"]; modified := JStr "v1" |}).
  vm_compute. reflexivity.
Defined.

Lemma step_kubeToken e s : kubeToken (step e s) = kubeToken s.
Proof.
  destruct e as [req replies kube|id m p html|id m|h kube]; simpl.
  - destruct (middleware_state req replies kube s)
      as [->|[->|[->|(_ & _ & _ & Htoken & _)]]]; try done.
    unfold suppress. by destruct (noCache s !! path req).
  - apply add_fields.
  - apply purge_only_cache.
  - unfold fire. destruct (timeouts s !! h) as [[p|]|]; [done| |done].
    destruct (updateInstances_only_network (kubeToken (clearTimeout h s)) kube
                (clearTimeout h s)) as (_ & _ & _ & Htoken & _).
    by simpl in *.
Qed.

Lemma kubeToken_run tokenFile events :
  kubeToken (run tokenFile events) =
    match tokenFile with
    | Some token => JStr token
    | None => JNull
    end.
Proof.
  induction events as [|e events IH] using rev_ind.
  - by destruct tokenFile.
  - by rewrite run_snoc, step_kubeToken.
Qed.

Lemma suppress_network p s :
  instances (suppress p s) = instances s ∧ outbox (suppress p s) = outbox s.
Proof. unfold suppress. by destruct (noCache s !! p). Qed.

Lemma untokened_step e s :
  timers_ok s → kubeToken s = JNull → instances s = [] → outbox s = [] →
  instances (step e s) = [] ∧ outbox (step e s) = [].
Proof.
  intros (_ & _ & _ & Hnopoll) Hnull Hinst Hout.
  destruct e as [req replies kube|id m p html|id m|h kube]; simpl.
  - unfold middleware.
    destruct (truthy (query_purge req) || truthy (query_edit req));
      [|by destruct (truthy (js_get _ _))].
    destruct (truthy (query_recurse req)) eqn:Hrec.
    + rewrite purgeCache_fanout by done. rewrite Hinst. simpl.
      by rewrite Hout.
    + rewrite purgeCache_local by done. simpl.
      destruct (truthy (query_edit req)); [|done].
      by destruct (suppress_network (path req) s) as [-> ->].
  - by destruct (add_fields id m p html s) as (_ & _ & _ & _ & -> & ->).
  - by destruct (purge_only_cache id m s) as (_ & _ & -> & _ & _ & _ & ->).
  - unfold fire. destruct (timeouts s !! h) as [[p|]|] eqn:Hh; [done| |done].
    by destruct (Hnopoll Hnull h).
Qed.

(** A module that found no token file at start-up stays on its own:
    whatever happens, its instance list is empty, it has sent no request
    at all, and it answers every purge request, recursive or not, with
    OK. *)
Theorem run_without_token events :
  let s := run None events in
  kubeToken s = JNull ∧ instances s = [] ∧ outbox s = [] ∧
  ∀ req replies kube,
    truthy (query_purge req) || truthy (query_edit req) = true →
    (middleware req replies kube s).2 = EndOK.
Proof.
  intros s. subst s.
  assert (instances (run None events) = [] ∧ outbox (run None events) = [])
    as [Hinst Hout].
  { induction events as [|e events IH] using rev_ind; [done|].
    rewrite run_snoc. destruct IH as [Hinst Hout].
    apply untokened_step; try done.
    - apply timers_ok_run.
    - apply (kubeToken_run None). }
  split; [apply (kubeToken_run None)|]. split; [done|]. split; [done|].
  intros req replies kube Hpurge. unfold middleware. rewrite Hpurge.
  destruct (truthy (query_recurse req)) eqn:Hrec.
  - rewrite purgeCache_fanout by done. by rewrite Hinst.
  - by rewrite purgeCache_local by done.
Qed.

Lemma run_without_token_witness :
  let s := run None [OnAdd "doc" (JStr "v1") "/a" (JStr "<a>")] in
  (middleware {| path := "/a"; query_purge := JStr "1"; query_edit := JUndefined;
                 query_recurse := JStr "1" |} [] (KubeTransportError "down") s).2
    = EndOK.
Proof.
  intros s.
  destruct (run_without_token [OnAdd "doc" (JStr "v1") "/a" (JStr "<a>")])
    as (_ & _ & _ & Hok).
  apply Hok. reflexivity.
Defined.

(** The poll of a module that has a token: when its timer fires, the
    module asks for the instance list with the token it read at
    start-up; status 200 replaces the list and anything else leaves it;
    either way the fired timer is gone and the next poll is pending. *)
Theorem poll_rearms token events h kube :
  let s := run (Some token) events in
  timeouts s !! h = Some Poll →
  let s' := fire h kube s in
  last (outbox s') = Some (KubeList (JStr token)) ∧
  instances s' =
    match kube with
    | KubeHttp statusCode items =>
        if (statusCode =? 200)%Z then map podIP items else instances s
    | KubeTransportError _ => instances s
    end ∧
  timeouts s' !! h = None ∧ timeouts s' !! nextTimer s = Some Poll.
Proof.
  intros s Hh s'.
  pose proof (kubeToken_run (Some token) events) as Htoken. fold s in Htoken.
  destruct (timers_ok_run (Some token) events) as (_ & Hfresh & _). fold s in Hfresh.
  assert (h < nextTimer s) as Hlt by (apply Hfresh; by eexists).
  subst s'. unfold fire. rewrite Hh.
  change (kubeToken (clearTimeout h s)) with (kubeToken s). rewrite Htoken.
  destruct (updateInstances_only_network (JStr token) kube (clearTimeout h s))
    as (_ & _ & _ & _ & Htime & Hnext).
  unfold setTimeout. cbn [snd outbox instances timeouts].
  rewrite updateInstances_outbox, last_snoc, Htime, Hnext.
  split; [done|]. split; [|split].
  - unfold updateInstances. destruct kube as [e|statusCode items]; [done|].
    by destruct (statusCode =? 200)%Z.
  - simpl. rewrite lookup_insert_ne by lia. apply lookup_delete_eq.
  - simpl. apply lookup_insert_eq.
Qed.

Lemma poll_rearms_witness :
  let s := run (Some "token") [OnAdd "doc" (JStr "v1") "/a" (JStr "<a>")] in
  let s' := fire 0 (KubeHttp 200 [{| podIP := "10.0.0.7" |}]) s in
  instances s' = ["10.0.0.7"] ∧ timeouts s' !! 0 = None ∧
  timeouts s' !! 1 = Some Poll.
Proof.
  intros s s'.
  destruct (poll_rearms "token" [OnAdd "doc" (JStr "v1") "/a" (JStr "<a>")] 0
              (KubeHttp 200 [{| podIP := "10.0.0.7" |}]))
    as (_ & Hinst & Hgone & Hnext); [reflexivity|].
  split; [exact Hinst|]. split; [exact Hgone | exact Hnext].
Defined.

(** ** Versions and repeated notifications *)

(** Because the record keeps the modification time it was created with,
    the notification of a new version is not remembered: once the page
    has been rendered again under the new version, a second notification
    of that same version purges it again. *)
Theorem repeated_notification_purges_again id m data p html s :
  byId s !! id = Some data → strict_eq (modified data) m = false →
  truthy m = true → noCache s !! p = None → truthy html = true →
  let s1 := add id m p html (purge id m s) in
  js_get (cache s1) p = html ∧ cache (purge id m s1) !! p = None.
Proof.
  intros Hid Hm Htruthy Hsup Hhtml s1.
  destruct (purge_only_cache id m s) as (Hid0 & Hno0 & _).
  assert (s1 = set_byId <[id := paths_add p data]>
                 (set_cache <[p := html]> (purge id m s))) as Hs1.
  { subst s1. rewrite add_accepted by by rewrite ?Hno0.
    by rewrite Hid0, Hid. }
  assert (js_get (cache s1) p = html) as Hget.
  { rewrite Hs1. unfold js_get. simpl. by rewrite lookup_insert_eq. }
  split; [done|].
  rewrite (purge_changed id m (paths_add p data) s1);
    [|by rewrite Hs1; simpl; rewrite lookup_insert_eq|done].
  rewrite purge_urls_lookup, decide_True; [done|].
  split; [|by rewrite Hget].
  apply (elem_of_all_urls _ p); [|apply elem_of_ancestors_self].
  apply elem_of_set_add. by left.
Qed.

Lemma repeated_notification_purges_again_witness :
  let s1 := add "doc" (JStr "v2") "/a/b/c" (JStr "<c2>")
              (purge "doc" (JStr "v2") three_pages) in
  js_get (cache s1) "/a/b/c" = JStr "<c2>" ∧
  cache (purge "doc" (JStr "v2") s1) !! "/a/b/c" = None.
Proof.
  apply (repeated_notification_purges_again "doc" (JStr "v2")
           {| paths := ["/a/b/c"]; modified := JStr "v1" |}); reflexivity.
Defined.

Lemma strict_eq_truthy a b : strict_eq a b = true → truthy a = truthy b.
Proof.
  destruct a, b; simpl; try done.
  - by intros ->%Bool.eqb_prop.
  - by intros ->%Z.eqb_eq.
  - by intros ->%String.eqb_eq.
Qed.

(** A purge by id without a modification time, or with any other falsy
    one, is never skipped: the recorded modification times are truthy, so
    it goes ahead for every id that has a record and leaves no truthy
    cache entry at any path of the record. *)
Theorem purge_unversioned_goes_ahead tokenFile events id m data p :
  let s := run tokenFile events in
  byId s !! id = Some data → truthy m = false → p ∈ paths data →
  truthy (js_get (cache (purge id m s)) p) = false.
Proof.
  intros s Hid Hm Hp.
  destruct (index_ok_run tokenFile events) as [Hrec _]. fold s in Hrec.
  destruct (Hrec id data Hid) as (Htruthy & _).
  apply (purge_path_itself id m data); [done| |done].
  destruct (strict_eq (modified data) m) eqn:Heq; [|done].
  apply strict_eq_truthy in Heq. congruence.
Qed.

Lemma purge_unversioned_goes_ahead_witness :
  let s := run None [OnAdd "doc" (JStr "v1") "/a" (JStr "<a>")] in
  truthy (js_get (cache (purge "doc" JUndefined s)) "/a") = false.
Proof.
  apply (purge_unversioned_goes_ahead None
           [OnAdd "doc" (JStr "v1") "/a" (JStr "<a>")] "doc" JUndefined
           {| paths := ["/a"]; modified := JStr "v1" |}).
  - vm_compute. reflexivity.
  - reflexivity.
  - apply list_elem_of_here.
Defined.

(** ** The invariants at work *)

Lemma run_keeps_timers_ok_witness :
  let s := run (Some "token")
             [OnRequest (peer_request "/a" true) [] (KubeTransportError "down")] in
  noCache s !! "/a" = Some 1 ∧ timeouts s !! 1 = Some (Unsuppress "/a").
Proof.
  intros s.
  destruct (run_keeps_timers_ok (Some "token")
              [OnRequest (peer_request "/a" true) [] (KubeTransportError "down")])
    as (Hmap & _).
  assert (noCache s !! "/a" = Some 1) as Hno by reflexivity.
  split; [exact Hno|]. apply Hmap. exact Hno.
Defined.

Lemma run_keeps_index_ok_witness :
  let s := run None [OnAdd "doc" (JStr "v1") "/a" (JStr "<a>")] in
  ∃ id data, byId s !! id = Some data ∧ "/a" ∈ paths data.
Proof.
  intros s.
  destruct (run_keeps_index_ok None [OnAdd "doc" (JStr "v1") "/a" (JStr "<a>")])
    as (_ & Hidx).
  apply Hidx. vm_compute. eexists. reflexivity.
Defined.
